(** * kvass: the bbolt-backed key-value facade (package [db], bbolt/bblot.go)

    A shallow embedding of the facade [Store] and of the part of the
    go.etcd.io/bbolt engine that the facade calls, followed by the facts the
    specification states about [Incr], [Save], [Get], [Delete], [Scan],
    [FindPrefix] and [FindBetween].

    The source file holds two copies of the facade.  The first one (with
    [Delete] and with the saturation guard in [Incr]) is embedded at top level;
    the second one (with the process-wide singleton, no [Delete], no guard in
    [Incr]) is embedded in module [Singleton]. *)

From Stdlib Require Import ZArith NArith List Bool Lia Sorted.
From Stdlib Require Import Strings.Byte.
Import ListNotations.
Open Scope Z_scope.

(** ** Go values *)

(** A Go [[]byte].  The [nil] slice is distinguished where the code tests for
    it: such a value has type [option bytes]. *)
Definition bytes := list byte.

(** Go [error] values that the facade can return; [nil] is [None]. *)
Inductive error : Set :=
| ErrNotfound            (* db.ErrNotfound: "key not found in store" *)
| EOF                    (* io.EOF *)
| ErrTxNotWritable       (* bolt.ErrTxNotWritable *)
| ErrKeyRequired         (* bolt.ErrKeyRequired *)
| ErrKeyTooLarge         (* bolt.ErrKeyTooLarge *)
| ErrValueTooLarge       (* bolt.ErrValueTooLarge *)
| ErrBucketNameRequired. (* bolt.ErrBucketNameRequired *)

(** Run-time panics. *)
Inductive panic : Set :=
| NilPointerDereference
| IndexOutOfRange
| PanicError (e : error).

(** What a call does: it returns, or it panics. *)
Inductive outcome (A : Type) : Type :=
| Returns (a : A)
| Panics (p : panic).
Arguments Returns {A} a.
Arguments Panics {A} p.

Definition bind {A B : Type} (m : outcome A) (k : A -> outcome B) : outcome B :=
  match m with
  | Returns a => k a
  | Panics p => Panics p
  end.

Notation "x <- m ;; k" := (bind m (fun x => k))
  (at level 61, m at next level, right associativity).
Notation "' pat <- m ;; k" := (bind m (fun x => match x with pat => k end))
  (at level 61, pat pattern, m at next level, right associativity).

(** ** Package bytes *)
Module Bytes.

Fixpoint Equal (a b : bytes) : bool :=
  match a, b with
  | [], [] => true
  | x :: a', y :: b' => Byte.eqb x y && Equal a' b'
  | _, _ => false
  end.

(** [bytes.Compare]: lexicographic comparison of the unsigned byte values. *)
Fixpoint Compare (a b : bytes) : comparison :=
  match a, b with
  | [], [] => Eq
  | [], _ :: _ => Lt
  | _ :: _, [] => Gt
  | x :: a', y :: b' =>
      match N.compare (Byte.to_N x) (Byte.to_N y) with
      | Eq => Compare a' b'
      | c => c
      end
  end.

(** [bytes.HasPrefix]: [len(s) >= len(prefix) && Equal(s[:len(prefix)], prefix)]. *)
Definition HasPrefix (s prefix : bytes) : bool :=
  (length prefix <=? length s)%nat && Equal (firstn (length prefix) s) prefix.

End Bytes.

(** ** Package encoding/binary and math *)

Definition MaxUint64 : Z := 2 ^ 64 - 1.

(** [byte(x)] for an unsigned [x]: the low eight bits. *)
Definition byte_of_Z (x : Z) : byte :=
  match Byte.of_N (Z.to_N (x mod 256)) with
  | Some b => b
  | None => x00
  end.

(** [uint64(b)] for a byte [b]. *)
Definition Z_of_byte (b : byte) : Z := Z.of_N (Byte.to_N b).

Module BigEndian.

(** [binary.BigEndian.Uint64]: reads [b[0..7]]; [b[7]] out of range panics. *)
Definition Uint64 (b : bytes) : outcome Z :=
  match b with
  | b0 :: b1 :: b2 :: b3 :: b4 :: b5 :: b6 :: b7 :: _ =>
      Returns
        (Z.lor (Z_of_byte b7)
        (Z.lor (Z.shiftl (Z_of_byte b6) 8)
        (Z.lor (Z.shiftl (Z_of_byte b5) 16)
        (Z.lor (Z.shiftl (Z_of_byte b4) 24)
        (Z.lor (Z.shiftl (Z_of_byte b3) 32)
        (Z.lor (Z.shiftl (Z_of_byte b2) 40)
        (Z.lor (Z.shiftl (Z_of_byte b1) 48)
               (Z.shiftl (Z_of_byte b0) 56))))))))
  | _ => Panics IndexOutOfRange
  end.

(** [binary.BigEndian.PutUint64] into a slice of eight or more bytes. *)
Definition PutUint64 (b : bytes) (v : Z) : outcome bytes :=
  match b with
  | _ :: _ :: _ :: _ :: _ :: _ :: _ :: _ :: rest =>
      Returns
        (byte_of_Z (Z.shiftr v 56) :: byte_of_Z (Z.shiftr v 48) ::
         byte_of_Z (Z.shiftr v 40) :: byte_of_Z (Z.shiftr v 32) ::
         byte_of_Z (Z.shiftr v 24) :: byte_of_Z (Z.shiftr v 16) ::
         byte_of_Z (Z.shiftr v 8) :: byte_of_Z v :: rest)
  | _ => Panics IndexOutOfRange
  end.

End BigEndian.

(** [make([]byte, n)]. *)
Definition make (n : nat) : bytes := repeat x00 n.

(** [n += 1] on a [uint64]. *)
Definition add1_uint64 (n : Z) : Z := (n + 1) mod 2 ^ 64.

(** ** Package bolt (go.etcd.io/bbolt), as far as the facade uses it

    The engine is a dependency of the repository.  It is modelled at the level
    of its documented interface: a database is a set of named top-level
    buckets, a bucket is a sequence of key/value pairs kept in ascending
    [bytes.Compare] order of the keys, a transaction works on a private copy
    that [Update] installs on commit and that [View] and a failed [Update]
    discard.  The facade never creates nested buckets, so a bucket holds plain
    pairs only.  Disk and I/O failures are not modelled. *)
Module bolt.

Definition MaxKeySize : Z := 32768.
Definition MaxValueSize : Z := 2 ^ 31 - 2.

Definition entry : Type := bytes * bytes.
Definition pairs : Type := list entry.

(** The committed state of a [*bolt.DB]: top-level buckets by name. *)
Definition DB : Type := list (bytes * pairs).

Record Tx : Type := mkTx { writable : bool; root : DB }.

(** A [*bolt.Bucket] of a transaction: [nil], or the bucket of that name. *)
Definition Bucket : Type := option bytes.

Fixpoint lookup_bucket (name : bytes) (d : DB) : option pairs :=
  match d with
  | [] => None
  | (n, p) :: d' => if Bytes.Equal n name then Some p else lookup_bucket name d'
  end.

Fixpoint store_bucket (name : bytes) (p : pairs) (d : DB) : DB :=
  match d with
  | [] => [(name, p)]
  | (n, q) :: d' =>
      if Bytes.Equal n name then (n, p) :: d' else (n, q) :: store_bucket name p d'
  end.

Definition bucket_pairs (tx : Tx) (name : bytes) : pairs :=
  match lookup_bucket name (root tx) with
  | Some p => p
  | None => []
  end.

(** [tx.Bucket(name)]: [nil] when there is no such bucket. *)
Definition Tx_Bucket (tx : Tx) (name : bytes) : Bucket :=
  match lookup_bucket name (root tx) with
  | Some _ => Some name
  | None => None
  end.

(** [tx.CreateBucketIfNotExists(name)]. *)
Definition Tx_CreateBucketIfNotExists (tx : Tx) (name : bytes)
  : Bucket * option error * Tx :=
  if negb (writable tx) then (None, Some ErrTxNotWritable, tx)
  else if (length name =? 0)%nat then (None, Some ErrBucketNameRequired, tx)
  else match lookup_bucket name (root tx) with
       | Some _ => (Some name, None, tx)
       | None => (Some name, None, mkTx (writable tx) (root tx ++ [(name, [])]))
       end.

(** The pairs from the first key [>= k] on. *)
Fixpoint seek (k : bytes) (p : pairs) : pairs :=
  match p with
  | [] => []
  | (k', v) :: p' =>
      match Bytes.Compare k' k with
      | Lt => seek k p'
      | _ => p
      end
  end.

Fixpoint put (k v : bytes) (p : pairs) : pairs :=
  match p with
  | [] => [(k, v)]
  | (k', v') :: p' =>
      match Bytes.Compare k' k with
      | Lt => (k', v') :: put k v p'
      | Eq => (k, v) :: p'
      | Gt => (k, v) :: (k', v') :: p'
      end
  end.

Fixpoint del (k : bytes) (p : pairs) : pairs :=
  match p with
  | [] => []
  | (k', v') :: p' =>
      match Bytes.Compare k' k with
      | Lt => (k', v') :: del k p'
      | Eq => p'
      | Gt => p
      end
  end.

Definition get (key : bytes) (p : pairs) : option bytes :=
  match seek key p with
  | (k, v) :: _ => if Bytes.Equal key k then Some v else None
  | [] => None
  end.

(** [b.Get(key)]: seeks to [key]; [nil] unless the key found there is [key].
    The value of an existing key is never [nil], also when it is empty.
    The engine's panic on reading a pair that ends beyond its window of
    2^31-1 bytes (values near [MaxValueSize]) is not modelled. *)
Definition Bucket_Get (tx : Tx) (b : Bucket) (key : bytes) : outcome (option bytes) :=
  match b with
  | None => Panics NilPointerDereference
  | Some name => Returns (get key (bucket_pairs tx name))
  end.

(** [b.Put(key, value)]. *)
Definition Bucket_Put (tx : Tx) (b : Bucket) (key value : bytes)
  : outcome (option error * Tx) :=
  match b with
  | None => Panics NilPointerDereference
  | Some name =>
      if negb (writable tx) then Returns (Some ErrTxNotWritable, tx)
      else if (length key =? 0)%nat then Returns (Some ErrKeyRequired, tx)
      else if Z.of_nat (length key) >? MaxKeySize then Returns (Some ErrKeyTooLarge, tx)
      else if Z.of_nat (length value) >? MaxValueSize then Returns (Some ErrValueTooLarge, tx)
      else Returns (None,
             mkTx (writable tx)
                  (store_bucket name (put key value (bucket_pairs tx name)) (root tx)))
  end.

(** [b.Delete(key)]: an error in a read-only transaction; no error when the
    key does not exist. *)
Definition Bucket_Delete (tx : Tx) (b : Bucket) (key : bytes)
  : outcome (option error * Tx) :=
  match b with
  | None => Panics NilPointerDereference
  | Some name =>
      if negb (writable tx) then Returns (Some ErrTxNotWritable, tx)
      else Returns (None,
             mkTx (writable tx)
                  (store_bucket name (del key (bucket_pairs tx name)) (root tx)))
  end.

(** [b.ForEach(fn)]: calls [fn] on every pair in key order, stops at the
    first error and returns it.  [fn] carries the state [S] of the closure. *)
Fixpoint for_each {S : Type} (fn : bytes -> bytes -> S -> option error * S)
    (p : pairs) (st : S) : option error * S :=
  match p with
  | [] => (None, st)
  | (k, v) :: p' =>
      match fn k v st with
      | (Some err, st') => (Some err, st')
      | (None, st') => for_each fn p' st'
      end
  end.

Definition Bucket_ForEach {S : Type} (tx : Tx) (b : Bucket)
    (fn : bytes -> bytes -> S -> option error * S) (st : S)
  : outcome (option error * S) :=
  match b with
  | None => Panics NilPointerDereference
  | Some name => Returns (for_each fn (bucket_pairs tx name) st)
  end.

(** A [*bolt.Cursor]: the pairs of its bucket and the position, given as the
    pairs from the current one on (empty at the end). *)
Record Cursor : Type := mkCursor { elems : pairs; pos : pairs }.

Definition Bucket_Cursor (tx : Tx) (b : Bucket) : outcome Cursor :=
  match b with
  | None => Panics NilPointerDereference
  | Some name => Returns (mkCursor (bucket_pairs tx name) (bucket_pairs tx name))
  end.

(** [c.Seek(seek)]: moves to the first key [>= seek]; a [nil] key at the end. *)
Definition Cursor_Seek (c : Cursor) (k : bytes) : Cursor * option entry :=
  let p := seek k (elems c) in (mkCursor (elems c) p, hd_error p).

(** [c.Next()]. *)
Definition Cursor_Next (c : Cursor) : Cursor * option entry :=
  (mkCursor (elems c) (tl (pos c)), hd_error (tl (pos c))).

(** [db.Update(fn)]: runs [fn] in a writable transaction; commits when [fn]
    returns [nil], rolls back when it returns an error or panics.  [C] is
    the state that the closure [fn] captures. *)
Definition DB_Update {C : Type} (d : DB)
    (fn : Tx -> C -> outcome (option error * Tx * C)) (c : C)
  : outcome (option error * C) * DB :=
  match fn (mkTx true d) c with
  | Panics p => (Panics p, d)
  | Returns (Some err, _, c') => (Returns (Some err, c'), d)
  | Returns (None, tx', c') => (Returns (None, c'), root tx')
  end.

(** [db.View(fn)]: runs [fn] in a read-only transaction and rolls it back. *)
Definition DB_View {C : Type} (d : DB)
    (fn : Tx -> C -> outcome (option error * Tx * C)) (c : C)
  : outcome (option error * C) * DB :=
  match fn (mkTx false d) c with
  | Panics p => (Panics p, d)
  | Returns (err, _, c') => (Returns (err, c'), d)
  end.

End bolt.

(** ** Package db: the facade, first copy (lines 1-136 of bbolt/bblot.go) *)

(** [type Store struct { db *bolt.DB }] *)
Record Store : Type := mkStore { db : bolt.DB }.

(** [NewStore] on a file that does not exist yet: an empty database. *)
Definition NewStore : Store := mkStore [].

(** A visitor [next func(key, val []byte) bool]; [S] is the state it captures. *)
Definition visitor (S : Type) : Type := bytes -> bytes -> S -> bool * S.

Definition commit {A : Type} (r : outcome A * bolt.DB) : outcome A * Store :=
  (fst r, mkStore (snd r)).

Definition CreateBucketIfNotExist (s : Store) (bucket : bytes)
  : outcome (option error) * Store :=
  commit
    (let (r, d) :=
       bolt.DB_Update (db s) (fun tx (_ : unit) =>
         let '(_, err, tx') := bolt.Tx_CreateBucketIfNotExists tx bucket in
         match err with
         | Some e => Panics (PanicError e)
         | None => Returns (err, tx', tt)
         end) tt in
     (' (err, _) <- r ;; Returns err, d)).

(** [Incr]: the named result [n] is the state of the closure; it starts at 0
    and keeps what the closure assigned also when the closure fails. *)
Definition Incr (s : Store) (bucket key : bytes) : outcome (Z * option error) * Store :=
  commit
    (let (r, d) :=
       bolt.DB_Update (db s) (fun tx (n : Z) =>
         let data := make 8 in
         let b := bolt.Tx_Bucket tx bucket in
         old <- bolt.Bucket_Get tx b key ;;
         n <- match old with
              | Some old => BigEndian.Uint64 old
              | None => Returns n
              end ;;
         (* if n is max, keep it *)
         if n =? MaxUint64 then Returns (None, tx, n)
         else
           let n := add1_uint64 n in
           data <- BigEndian.PutUint64 data n ;;
           ' (err, tx') <- bolt.Bucket_Put tx b key data ;;
           Returns (err, tx', n)) 0 in
     (' (err, n) <- r ;; Returns (n, err), d)).

Definition Save (s : Store) (bucket key val : bytes) : outcome (option error) * Store :=
  commit
    (let (r, d) :=
       bolt.DB_Update (db s) (fun tx (_ : unit) =>
         let b := bolt.Tx_Bucket tx bucket in
         ' (err, tx') <- bolt.Bucket_Put tx b key val ;;
         Returns (err, tx', tt)) tt in
     (' (err, _) <- r ;; Returns err, d)).

(** [Get]: the named result [val] is the state of the closure, [nil] at first. *)
Definition Get (s : Store) (bucket key : bytes)
  : outcome (option bytes * option error) * Store :=
  commit
    (let (r, d) :=
       bolt.DB_View (db s) (fun tx (val : option bytes) =>
         let b := bolt.Tx_Bucket tx bucket in
         val <- bolt.Bucket_Get tx b key ;;
         match val with
         | None => Returns (Some ErrNotfound, tx, val)
         | Some _ => Returns (None, tx, val)
         end) None in
     (' (err, val) <- r ;; Returns (val, err), d)).

Definition Delete (s : Store) (bucket key : bytes) : outcome (option error) * Store :=
  commit
    (let (r, d) :=
       bolt.DB_View (db s) (fun tx (_ : unit) =>
         let b := bolt.Tx_Bucket tx bucket in
         ' (err, tx') <- bolt.Bucket_Delete tx b key ;;
         Returns (err, tx', tt)) tt in
     (' (err, _) <- r ;; Returns err, d)).

(** The callback that the scans hand to the engine:
    [if !next(k, v) { return io.EOF }; return nil]. *)
Definition eof_unless {S : Type} (next : visitor S)
  : bytes -> bytes -> S -> option error * S :=
  fun k v st =>
    let (continue, st') := next k v st in
    if negb continue then (Some EOF, st') else (None, st').

Definition Scan {S : Type} (s : Store) (bucket : bytes) (next : visitor S) (st : S)
  : outcome (option error * S) * Store :=
  commit
    (bolt.DB_View (db s) (fun tx st =>
       let b := bolt.Tx_Bucket tx bucket in
       ' (err, st') <- bolt.Bucket_ForEach tx b (eof_unless next) st ;;
       Returns (err, tx, st')) st).

(** [for k, v := c.Seek(..); k != nil && cond(k); k, v = c.Next() { body }]
    with the body of [FindPrefix] and [FindBetween].  The argument [p] is the
    position of the cursor: [k, v] is its head ([k == nil] when it is empty)
    and [c.Next()] moves to its tail. *)
Fixpoint for_cursor {S : Type} (cond : bytes -> bool) (next : visitor S)
    (p : bolt.pairs) (st : S) : option error * S :=
  match p with
  | [] => (None, st)
  | (k, v) :: p' =>
      if cond k then
        let (continue, st') := next k v st in
        if negb continue then (Some EOF, st')
        else for_cursor cond next p' st'
      else (None, st)
  end.

Definition FindPrefix {S : Type} (s : Store) (bucket prefix : bytes)
    (next : visitor S) (st : S) : outcome (option error * S) * Store :=
  commit
    (bolt.DB_View (db s) (fun tx st =>
       c <- bolt.Bucket_Cursor tx (bolt.Tx_Bucket tx bucket) ;;
       let (c, _) := bolt.Cursor_Seek c prefix in
       let (err, st') :=
         for_cursor (fun k => Bytes.HasPrefix k prefix) next (bolt.pos c) st in
       Returns (err, tx, st')) st).

Definition FindBetween {S : Type} (s : Store) (bucket start end_ : bytes)
    (next : visitor S) (st : S) : outcome (option error * S) * Store :=
  commit
    (bolt.DB_View (db s) (fun tx st =>
       let (start, end_) :=
         match Bytes.Compare start end_ with
         | Gt => (end_, start)
         | _ => (start, end_)
         end in
       c <- bolt.Bucket_Cursor tx (bolt.Tx_Bucket tx bucket) ;;
       let (c, _) := bolt.Cursor_Seek c start in
       let (err, st') :=
         for_cursor (fun k => match Bytes.Compare k end_ with Gt => false | _ => true end)
                    next (bolt.pos c) st in
       Returns (err, tx, st')) st).

(** ** The facade, second copy (lines 137-269 of bbolt/bblot.go)

    It has no [Delete]; its [Incr] has no guard at the maximum; its
    [CreateBucketIfNotExist], [Get], [Scan], [FindPrefix] and [FindBetween]
    are the same text as in the first copy. *)
Module Singleton.

Definition Incr (s : Store) (bucket key : bytes)
  : outcome (Z * option error) * Store :=
  commit
    (let (r, d) :=
       bolt.DB_Update (db s) (fun tx (n : Z) =>
         let data := make 8 in
         let b := bolt.Tx_Bucket tx bucket in
         old <- bolt.Bucket_Get tx b key ;;
         n <- match old with
              | Some old => BigEndian.Uint64 old
              | None => Returns n
              end ;;
         let n := add1_uint64 n in
         data <- BigEndian.PutUint64 data n ;;
         ' (err, tx') <- bolt.Bucket_Put tx b key data ;;
         Returns (err, tx', n)) 0 in
     (' (err, n) <- r ;; Returns (n, err), d)).

Definition Save (s : Store) (bucket key val : bytes) : outcome (option error) * Store :=
  commit
    (let (r, d) :=
       bolt.DB_Update (db s) (fun tx (_ : unit) =>
         let b := bolt.Tx_Bucket tx bucket in
         ' (err, tx') <- bolt.Bucket_Put tx b key val ;;
         Returns (err, tx', tt)) tt in
     (' (err, _) <- r ;; Returns err, d)).

Definition CreateBucketIfNotExist := CreateBucketIfNotExist.
Definition Get := Get.
Definition Scan {S : Type} := @Scan S.
Definition FindPrefix {S : Type} := @FindPrefix S.
Definition FindBetween {S : Type} := @FindBetween S.

End Singleton.

(** ** Sample data *)

Definition b_ : bytes := ["b"%byte].
Definition k_a : bytes := ["a"%byte].
Definition k_b : bytes := ["b"%byte].
Definition k_c : bytes := ["c"%byte].
Definition k_e : bytes := ["e"%byte].
Definition k_m : bytes := ["m"%byte].
Definition k_fo : bytes := ["f"%byte; "o"%byte].
Definition k_foo : bytes := ["f"%byte; "o"%byte; "o"%byte].
Definition k_food : bytes := ["f"%byte; "o"%byte; "o"%byte; "d"%byte].
Definition k_foe : bytes := ["f"%byte; "o"%byte; "e"%byte].
Definition k_bar : bytes := ["b"%byte; "a"%byte; "r"%byte].

Definition after {A : Type} (r : outcome A * Store) : Store := snd r.

(** A new store with the bucket "b". *)
Definition s0 : Store := after (CreateBucketIfNotExist NewStore b_).

(** The bucket with the keys "a", "c" and "b", saved in that order. *)
Definition s_acb : Store :=
  after (Save (after (Save (after (Save s0 b_ k_a [x01])) b_ k_c [x03])) b_ k_b [x02]).

(** The bucket with the keys "foo", "food", "bar" and "foe", saved in that order. *)
Definition s_foo : Store :=
  after (Save (after (Save (after (Save (after (Save s0 b_ k_foo [])) b_ k_food []))
                        b_ k_bar [])) b_ k_foe []).

(** The bucket with the keys "a", "c" and "e". *)
Definition s_ace : Store :=
  after (Save (after (Save (after (Save s0 b_ k_a [])) b_ k_c [])) b_ k_e []).

(** The bucket with one counter primed to 0xFFFFFFFFFFFFFFFF. *)
Definition s_max : Store := after (Save s0 b_ k_a (repeat xff 8)).

(** ** Vocabulary of the properties *)

Definition key_lt (e1 e2 : bolt.entry) : Prop :=
  Bytes.Compare (fst e1) (fst e2) = Lt.

(** Strictly ascending keys, as a test. *)
Fixpoint ascending (p : bolt.pairs) : bool :=
  match p with
  | [] => true
  | (k, _) :: p' =>
      match p' with
      | [] => true
      | (k', _) :: _ =>
          match Bytes.Compare k k' with Lt => ascending p' | _ => false end
      end
  end.

(** The invariant of the engine: every bucket is in strictly ascending order. *)
Definition wf (s : Store) : bool := forallb (fun nb => ascending (snd nb)) (db s).

(** [s] has the bucket [bucket], with the pairs [p]. *)
Definition has_bucket (s : Store) (bucket : bytes) (p : bolt.pairs) : Prop :=
  bolt.lookup_bucket bucket (db s) = Some p.

(** The keys and values that [Put] accepts. *)
Definition accepted_key (key : bytes) : bool :=
  negb (length key =? 0)%nat && negb (Z.of_nat (length key) >? bolt.MaxKeySize).

Definition accepted_value (val : bytes) : bool :=
  negb (Z.of_nat (length val) >? bolt.MaxValueSize).

(** [start <= k <= end_]. *)
Definition between (start end_ k : bytes) : bool :=
  match Bytes.Compare start k with Gt => false | _ => true end &&
  match Bytes.Compare k end_ with Gt => false | _ => true end.

(** A visitor that also writes down every call and its answer. *)
Definition recording {S : Type} (next : visitor S)
  : visitor (S * list (bolt.entry * bool)) :=
  fun k v '(st, log) =>
    let (continue, st') := next k v st in
    (continue, (st', log ++ [((k, v), continue)])).

(** The log of a scan over [L] that visits the pairs of [L] in order, one call
    each, goes on after every answer [true], and ends at the end of [L] or at
    the first answer [false]. *)
Definition scan_of (L : bolt.pairs) (log : list (bolt.entry * bool)) : Prop :=
  (exists rest, L = map fst log ++ rest) /\
  Forall (fun d => snd d = true) (removelast log) /\
  (map fst log = L \/ exists l e, log = l ++ [(e, false)]).

(** The visitor answered [false] at its last call. *)
Definition stopped (log : list (bolt.entry * bool)) : Prop :=
  exists l e, log = l ++ [(e, false)].

(** The calls that a scan over [L] makes, with the answers: it goes through
    [L] in order and ends after the first answer [false]. *)
Fixpoint trace {S : Type} (next : visitor S) (L : bolt.pairs) (st : S)
  : list (bolt.entry * bool) :=
  match L with
  | [] => []
  | (k, v) :: L' =>
      let (continue, st') := next k v st in
      ((k, v), continue) :: (if continue then trace next L' st' else [])
  end.

(** The pairs of [p] before the first key that fails [cond]. *)
Fixpoint take_while (cond : bytes -> bool) (p : bolt.pairs) : bolt.pairs :=
  match p with
  | [] => []
  | (k, v) :: p' => if cond k then (k, v) :: take_while cond p' else []
  end.

Definition le_key (hi k : bytes) : bool :=
  match Bytes.Compare k hi with Gt => false | _ => true end.

(** A scan called with [next] returned [err] and left the visitor in state
    [st']; called with [recording next] it did the same and wrote [log].  The
    store is [s] afterwards in both. *)
Definition scan_result {S : Type} (s : Store)
    (r : outcome (option error * S) * Store)
    (r_rec : outcome (option error * (S * list (bolt.entry * bool))) * Store)
    (err : option error) (st' : S) (log : list (bolt.entry * bool)) : Prop :=
  r = (Returns (err, st'), s) /\ r_rec = (Returns (err, (st', log)), s).

(** Sequences of [Save] and [Get] on one bucket. *)
Inductive op : Type :=
| OpSave (key val : bytes)
| OpGet (key : bytes).

Definition exec (bucket : bytes) (s : Store) (o : op) : Store :=
  match o with
  | OpSave key val => after (Save s bucket key val)
  | OpGet key => after (Get s bucket key)
  end.

Definition run (bucket : bytes) (ops : list op) (s : Store) : Store :=
  fold_left (exec bucket) ops s.

(** The value of the most recent [OpSave] on [key] that [Put] accepts. *)
Fixpoint last_saved (key : bytes) (ops : list op) : option bytes :=
  match ops with
  | [] => None
  | o :: ops' =>
      match last_saved key ops' with
      | Some v => Some v
      | None =>
          match o with
          | OpSave k v =>
              if Bytes.Equal k key && (accepted_key k && accepted_value v)
              then Some v else None
          | OpGet _ => None
          end
      end
  end.

(** The store after [n] calls of an increment function on one key. *)
Fixpoint calls (incr : Store -> bytes -> bytes -> outcome (Z * option error) * Store)
    (n : nat) (s : Store) (bucket key : bytes) : Store :=
  match n with
  | O => s
  | S n' => after (incr (calls incr n' s bucket key) bucket key)
  end.

(** The eight bytes of a counter. *)
Definition counter_bytes (n : Z) : bytes :=
  [byte_of_Z (Z.shiftr n 56); byte_of_Z (Z.shiftr n 48); byte_of_Z (Z.shiftr n 40);
   byte_of_Z (Z.shiftr n 32); byte_of_Z (Z.shiftr n 24); byte_of_Z (Z.shiftr n 16);
   byte_of_Z (Z.shiftr n 8); byte_of_Z n].

(** The counter that [Incr] reads under [key]: 0 for an absent key, else the
    big-endian value of the first eight bytes. *)
Definition counter_is (p : bolt.pairs) (key : bytes) (m : Z) : Prop :=
  (bolt.get key p = None /\ m = 0) \/
  (exists old, bolt.get key p = Some old /\ BigEndian.Uint64 old = Returns m).

(** A writing call leaves the store as it was or puts one pair into the bucket. *)
Definition unchanged_or_put (s s' : Store) (bucket key : bytes) : Prop :=
  s' = s \/
  exists p data, has_bucket s bucket p /\
    s' = mkStore (bolt.store_bucket bucket (bolt.put key data p) (db s)).

(** The stores that calls of the facade build from a new one.  [Get],
    [Delete] and the scans run in read-only transactions and change nothing. *)
Inductive reachable : Store -> Prop :=
| reach_NewStore : reachable NewStore
| reach_CreateBucketIfNotExist s bucket :
    reachable s -> reachable (after (CreateBucketIfNotExist s bucket))
| reach_Save s bucket key val :
    reachable s -> reachable (after (Save s bucket key val))
| reach_Incr s bucket key :
    reachable s -> reachable (after (Incr s bucket key))
| reach_Singleton_Incr s bucket key :
    reachable s -> reachable (after (Singleton.Incr s bucket key)).

(** A writing call leaves the store as it was or puts one pair that the
    engine accepts into the bucket. *)
Definition unchanged_or_accepted_put (s s' : Store) (bucket key : bytes) : Prop :=
  s' = s \/
  exists p data, has_bucket s bucket p /\
    accepted_key key = true /\ accepted_value data = true /\
    s' = mkStore (bolt.store_bucket bucket (bolt.put key data p) (db s)).

(** What the engine keeps true of a bucket and of a store: the name of a
    bucket is not empty, its keys are strictly ascending, and every pair is
    one that [Put] accepts. *)
Definition accepted_pair (e : bolt.entry) : Prop :=
  accepted_key (fst e) = true /\ accepted_value (snd e) = true.

Definition bucket_inv (nb : bytes * bolt.pairs) : Prop :=
  fst nb <> [] /\ StronglySorted key_lt (snd nb) /\ Forall accepted_pair (snd nb).

Definition store_inv (s : Store) : Prop := Forall bucket_inv (db s).

(** A bucket whose key "a" holds nine bytes: the counter 5 and one more byte. *)
Definition s_long : Store :=
  after (Save s0 b_ k_a [x00; x00; x00; x00; x00; x00; x00; x05; xff]).

(** The error of [Put] on a key and a value, [nil] when it accepts them. *)
Definition put_error (key val : bytes) : option error :=
  if (length key =? 0)%nat then Some ErrKeyRequired
  else if Z.of_nat (length key) >? bolt.MaxKeySize then Some ErrKeyTooLarge
  else if Z.of_nat (length val) >? bolt.MaxValueSize then Some ErrValueTooLarge
  else None.

(** What a writable transaction that puts [val] under [key] comes to, with
    the result [r] of the closure. *)
Definition put_outcome {A : Type} (s : Store) (bucket key val : bytes) (p : bolt.pairs)
    (r : option error -> A) : outcome A * Store :=
  match put_error key val with
  | Some e => (Returns (r (Some e)), s)
  | None =>
      (Returns (r None),
       mkStore (bolt.store_bucket bucket (bolt.put key val p) (db s)))
  end.

(** The counter that [Incr] reads in the pairs [p]; the read can panic. *)
Definition read_counter (p : bolt.pairs) (key : bytes) : outcome Z :=
  match bolt.get key p with
  | Some old => BigEndian.Uint64 old
  | None => Returns 0
  end.

(** A size up to which the model of the engine covers reading a value back.
    The engine accepts values up to [MaxValueSize], but it reads a pair
    through a window of 2^31-1 bytes that also holds the element headers and
    the pairs before it in the page, so reading near that limit can panic.
    With values up to this size (16 MiB) the pairs that share a page stay far
    inside the window. *)
Definition ReadBackLimit : Z := 2 ^ 24.

Definition small_value (val : bytes) : bool := Z.of_nat (length val) <=? ReadBackLimit.

(** Pairs with keys the engine accepts and values up to [ReadBackLimit]. *)
Definition small_pairs (p : bolt.pairs) : bool :=
  forallb (fun e => accepted_key (fst e) && small_value (snd e)) p.

(** A sequence whose [Save]s carry values up to [ReadBackLimit]. *)
Definition small_ops (ops : list op) : bool :=
  forallb (fun o => match o with OpSave _ v => small_value v | OpGet _ => true end) ops.

(** A scan over [L] that returned [err] and wrote [log]: the calls are the
    pairs of [L] in order up to the end or the first answer [false]; no call
    follows an answer [false]; the error is [io.EOF] exactly when some call
    answered [false], and [nil] exactly when every call answered [true]. *)
Definition scan_ends (L : bolt.pairs) (err : option error)
    (log : list (bolt.entry * bool)) : Prop :=
  scan_of L log /\
  (forall l e rest, log = l ++ (e, false) :: rest -> rest = []) /\
  (err = Some EOF <-> exists e, In (e, false) log) /\
  (err = None <-> Forall (fun d => snd d = true) log).

(** * Properties *)

(** ** Byte strings *)

Lemma Equal_true_iff (a b : bytes) : Bytes.Equal a b = true <-> a = b.
Proof.
  revert b. induction a as [|x a IH]; intros [|y b]; simpl; split; intro H;
    try reflexivity; try discriminate.
  - apply andb_true_iff in H. destruct H as [H1 H2].
    apply Byte.byte_dec_bl in H1. apply IH in H2. now subst.
  - injection H as -> ->. apply andb_true_iff. split.
    + now apply Byte.byte_dec_lb.
    + now apply IH.
Qed.

Lemma Equal_refl (a : bytes) : Bytes.Equal a a = true.
Proof. now apply Equal_true_iff. Qed.

Lemma Equal_false_iff (a b : bytes) : Bytes.Equal a b = false <-> a <> b.
Proof.
  rewrite <- Equal_true_iff. destruct (Bytes.Equal a b); split; congruence.
Qed.

Lemma to_N_inj (x y : byte) : Byte.to_N x = Byte.to_N y -> x = y.
Proof.
  intro H. pose proof (Byte.of_to_N x) as Hx. pose proof (Byte.of_to_N y) as Hy.
  rewrite H in Hx. congruence.
Qed.

Lemma Compare_Eq_iff (a b : bytes) : Bytes.Compare a b = Eq <-> a = b.
Proof.
  revert b. induction a as [|x a IH]; intros [|y b]; simpl; split; intro H;
    try reflexivity; try discriminate.
  - destruct (N.compare_spec (Byte.to_N x) (Byte.to_N y)) as [E|E|E]; try discriminate.
    apply to_N_inj in E. apply IH in H. now subst.
  - injection H as -> ->. rewrite N.compare_refl. now apply IH.
Qed.

Lemma Compare_refl (a : bytes) : Bytes.Compare a a = Eq.
Proof. now apply Compare_Eq_iff. Qed.

Lemma Compare_antisym (a b : bytes) : Bytes.Compare b a = CompOpp (Bytes.Compare a b).
Proof.
  revert b. induction a as [|x a IH]; intros [|y b]; simpl; try reflexivity.
  rewrite (N.compare_antisym (Byte.to_N x) (Byte.to_N y)).
  destruct (Byte.to_N x ?= Byte.to_N y)%N; simpl; auto.
Qed.

Lemma Compare_Gt_Lt (a b : bytes) : Bytes.Compare a b = Gt <-> Bytes.Compare b a = Lt.
Proof.
  rewrite (Compare_antisym a b). destruct (Bytes.Compare a b); simpl; split; congruence.
Qed.

Lemma Compare_Lt_trans (a b c : bytes) :
  Bytes.Compare a b = Lt -> Bytes.Compare b c = Lt -> Bytes.Compare a c = Lt.
Proof.
  revert b c. induction a as [|x a IH]; intros [|y b] [|z c]; simpl; try congruence.
  destruct (N.compare_spec (Byte.to_N x) (Byte.to_N y)) as [E|E|E]; try discriminate;
    destruct (N.compare_spec (Byte.to_N y) (Byte.to_N z)) as [F|F|F]; try discriminate;
    intros H1 H2.
  - rewrite E, F, N.compare_refl. eauto.
  - rewrite E. apply N.compare_lt_iff in F. now rewrite F.
  - rewrite <- F. apply N.compare_lt_iff in E. now rewrite E.
  - assert (G : (Byte.to_N x < Byte.to_N z)%N) by lia.
    apply N.compare_lt_iff in G. now rewrite G.
Qed.

Lemma Compare_Lt_neq (a b : bytes) : Bytes.Compare a b = Lt -> a <> b.
Proof. intros H ->. rewrite Compare_refl in H. discriminate. Qed.

Lemma HasPrefix_nil (s : bytes) : Bytes.HasPrefix s [] = true.
Proof. reflexivity. Qed.

Lemma HasPrefix_cons (x y : byte) (s p : bytes) :
  Bytes.HasPrefix (x :: s) (y :: p) = Byte.eqb x y && Bytes.HasPrefix s p.
Proof.
  unfold Bytes.HasPrefix. simpl.
  destruct (length p <=? length s)%nat; simpl; [reflexivity|].
  now rewrite andb_false_r.
Qed.

Lemma HasPrefix_app_iff (s p : bytes) :
  Bytes.HasPrefix s p = true <-> exists t, s = p ++ t.
Proof.
  revert s. induction p as [|y p IH]; intros s.
  - split; [intros _; now exists s | reflexivity].
  - destruct s as [|x s].
    + split; [discriminate | intros [t H]; discriminate].
    + rewrite HasPrefix_cons, andb_true_iff, IH. split.
      * intros [H1 [t ->]]. apply Byte.byte_dec_bl in H1. subst. now exists t.
      * intros [t H]. injection H as -> ->. split.
        -- now apply Byte.byte_dec_lb.
        -- now exists t.
Qed.

Lemma HasPrefix_not_Lt (k p : bytes) :
  Bytes.HasPrefix k p = true -> Bytes.Compare k p <> Lt.
Proof.
  revert k. induction p as [|y p IH]; intros [|x k]; try (simpl; congruence).
  { discriminate. }
  rewrite HasPrefix_cons. simpl. intros H. apply andb_true_iff in H. destruct H as [H1 H2].
  apply Byte.byte_dec_bl in H1. subst. rewrite N.compare_refl. now apply IH.
Qed.

(** Past a key that is [>= p] and lacks the prefix [p], no key has it. *)
Lemma HasPrefix_gap (p k k' : bytes) :
  Bytes.Compare k p <> Lt -> Bytes.HasPrefix k p = false ->
  Bytes.Compare k k' = Lt -> Bytes.HasPrefix k' p = false.
Proof.
  revert k k'. induction p as [|y p IH]; intros k k'.
  { rewrite HasPrefix_nil. discriminate. }
  destruct k as [|x k]; [simpl; congruence|].
  destruct k' as [|z k']; [reflexivity|].
  rewrite !HasPrefix_cons. simpl.
  destruct (N.compare_spec (Byte.to_N x) (Byte.to_N y)) as [E|E|E]; try congruence;
    destruct (N.compare_spec (Byte.to_N x) (Byte.to_N z)) as [F|F|F]; try congruence;
    intros H1 H2 H3.
  - apply to_N_inj in E, F. subst. rewrite Byte.byte_dec_lb in * by reflexivity.
    simpl in *. eauto.
  - destruct (Byte.eqb z y) eqn:G; [|reflexivity].
    apply Byte.byte_dec_bl in G. subst. lia.
  - destruct (Byte.eqb z y) eqn:G; [|reflexivity].
    apply Byte.byte_dec_bl in G. subst. lia.
  - destruct (Byte.eqb z y) eqn:G; [|reflexivity].
    apply Byte.byte_dec_bl in G. subst. lia.
Qed.

(** ** Ordered pairs *)

Lemma key_lt_trans : RelationClasses.Transitive key_lt.
Proof. intros a b c. unfold key_lt. apply Compare_Lt_trans. Qed.

Lemma ascending_iff (p : bolt.pairs) : ascending p = true <-> StronglySorted key_lt p.
Proof.
  split.
  - intro H. apply Sorted_StronglySorted; [exact key_lt_trans|].
    induction p as [|[k v] p IH]; [constructor|].
    simpl in H. destruct p as [|[k' v'] p'].
    + repeat constructor.
    + destruct (Bytes.Compare k k') eqn:E; try discriminate.
      constructor; [now apply IH | now constructor].
  - intro H. apply StronglySorted_Sorted in H.
    induction H as [|[k v] p Hs IH Hd]; [reflexivity|].
    simpl. destruct p as [|[k' v'] p']; [reflexivity|].
    inversion Hd as [|? ? Hlt]; subst. unfold key_lt in Hlt. simpl in Hlt.
    now rewrite Hlt.
Qed.

Lemma put_Forall (P : bolt.entry -> Prop) (k v : bytes) (p : bolt.pairs) :
  P (k, v) -> Forall P p -> Forall P (bolt.put k v p).
Proof.
  intros Hk H. induction H as [|[k' v'] p Hh Ht IH]; simpl.
  - now constructor.
  - destruct (Bytes.Compare k' k); repeat constructor; auto.
Qed.

Lemma put_sorted (k v : bytes) (p : bolt.pairs) :
  StronglySorted key_lt p -> StronglySorted key_lt (bolt.put k v p).
Proof.
  induction 1 as [|[k' v'] p Hs IH Hf]; simpl.
  - repeat constructor.
  - destruct (Bytes.Compare k' k) eqn:E.
    + apply Compare_Eq_iff in E. subst. now constructor.
    + constructor; [exact IH|]. now apply put_Forall.
    + apply Compare_Gt_Lt in E. constructor; [now constructor|].
      constructor; [exact E|].
      eapply Forall_impl; [|exact Hf]. intros e He. unfold key_lt in *.
      eapply Compare_Lt_trans; eauto.
Qed.

Lemma del_sorted (k : bytes) (p : bolt.pairs) :
  StronglySorted key_lt p -> StronglySorted key_lt (bolt.del k p).
Proof.
  induction 1 as [|[k' v'] p Hs IH Hf]; simpl; [constructor|].
  destruct (Bytes.Compare k' k); try (now constructor); auto.
  constructor; [exact IH|].
  clear - Hf. induction Hf as [|[k1 v1] p Hh Ht IH']; simpl; [constructor|].
  destruct (Bytes.Compare k1 k); auto.
Qed.

Lemma seek_here (k : bytes) (p : bolt.pairs) :
  match p with
  | [] => True
  | (k', _) :: _ => Bytes.Compare k' k <> Lt
  end -> bolt.seek k p = p.
Proof.
  destruct p as [|[k' v'] p]; simpl; [reflexivity|].
  destruct (Bytes.Compare k' k); congruence.
Qed.

Lemma seek_after (k k0 v0 : bytes) (p : bolt.pairs) :
  StronglySorted key_lt ((k0, v0) :: p) -> Bytes.Compare k0 k <> Lt ->
  bolt.seek k p = p.
Proof.
  intros Hs Hk. apply seek_here. destruct p as [|[k' v'] p]; [exact I|].
  inversion Hs as [|? ? _ Hf]; subst. inversion Hf as [|? ? Hlt _]; subst.
  unfold key_lt in Hlt. simpl in Hlt. intro H.
  apply Hk. eapply Compare_Lt_trans; eauto.
Qed.

Lemma get_put_same (k v : bytes) (p : bolt.pairs) : bolt.get k (bolt.put k v p) = Some v.
Proof.
  unfold bolt.get. induction p as [|[k' v'] p IH]; simpl.
  - now rewrite Compare_refl, Equal_refl.
  - destruct (Bytes.Compare k' k) eqn:E; simpl.
    + now rewrite Compare_refl, Equal_refl.
    + now rewrite E.
    + now rewrite Compare_refl, Equal_refl.
Qed.

Lemma get_put_other (k k' v : bytes) (p : bolt.pairs) :
  k <> k' -> bolt.get k (bolt.put k' v p) = bolt.get k p.
Proof.
  intro Hne. assert (Hf : Bytes.Equal k k' = false) by now apply Equal_false_iff.
  unfold bolt.get. induction p as [|[k1 v1] p IH]; simpl.
  - destruct (Bytes.Compare k' k) eqn:E; [| reflexivity |].
    + apply Compare_Eq_iff in E. congruence.
    + now rewrite Hf.
  - destruct (Bytes.Compare k1 k') eqn:E1; simpl.
    + apply Compare_Eq_iff in E1. subst k1.
      destruct (Bytes.Compare k' k) eqn:E; try reflexivity; now rewrite Hf.
    + destruct (Bytes.Compare k1 k) eqn:E; try reflexivity. exact IH.
    + destruct (Bytes.Compare k' k) eqn:E.
      * apply Compare_Eq_iff in E. congruence.
      * reflexivity.
      * assert (G : Bytes.Compare k1 k = Gt).
        { apply Compare_Gt_Lt. apply Compare_Gt_Lt in E1, E.
          eapply Compare_Lt_trans; eauto. }
        rewrite G, Hf.
        assert (Hk : Bytes.Equal k k1 = false).
        { apply Equal_false_iff. intros ->. rewrite Compare_refl in G. discriminate. }
        now rewrite Hk.
Qed.

Lemma get_In (k v : bytes) (p : bolt.pairs) : bolt.get k p = Some v -> In (k, v) p.
Proof.
  unfold bolt.get. induction p as [|[k1 v1] p IH]; simpl; [discriminate|].
  destruct (Bytes.Compare k1 k) eqn:E; try (intro H; right; now apply IH);
    destruct (Bytes.Equal k k1) eqn:F; try discriminate;
    apply Equal_true_iff in F; subst; intro H; injection H as ->; now left.
Qed.

Lemma In_get (k v : bytes) (p : bolt.pairs) :
  StronglySorted key_lt p -> In (k, v) p -> bolt.get k p = Some v.
Proof.
  unfold bolt.get. induction 1 as [|[k1 v1] p Hs IH Hf]; simpl; [contradiction|].
  intros [H|H].
  - injection H as -> ->. now rewrite Compare_refl, Equal_refl.
  - rewrite Forall_forall in Hf. apply Hf in H as Hlt. unfold key_lt in Hlt.
    simpl in Hlt. rewrite Hlt. now apply IH.
Qed.

(** ** Buckets of a store *)

Lemma lookup_store_same (n : bytes) (p : bolt.pairs) (d : bolt.DB) :
  bolt.lookup_bucket n (bolt.store_bucket n p d) = Some p.
Proof.
  induction d as [|[n' q] d IH]; simpl.
  - now rewrite Equal_refl.
  - destruct (Bytes.Equal n' n) eqn:E; simpl; now rewrite E.
Qed.

Lemma lookup_store_other (n n' : bytes) (p : bolt.pairs) (d : bolt.DB) :
  n <> n' -> bolt.lookup_bucket n' (bolt.store_bucket n p d) = bolt.lookup_bucket n' d.
Proof.
  intro Hne. induction d as [|[m q] d IH]; simpl.
  - apply Equal_false_iff in Hne. now rewrite Hne.
  - destruct (Bytes.Equal m n) eqn:E; simpl.
    + apply Equal_true_iff in E. subst m.
      apply Equal_false_iff in Hne. now rewrite Hne.
    + destruct (Bytes.Equal m n'); [reflexivity | exact IH].
Qed.

Lemma wf_bucket (s : Store) (bucket : bytes) (p : bolt.pairs) :
  wf s = true -> has_bucket s bucket p -> StronglySorted key_lt p.
Proof.
  unfold wf, has_bucket. destruct s as [d]. simpl.
  induction d as [|[n q] d IH]; simpl; [discriminate|].
  intros H. apply andb_true_iff in H. destruct H as [H1 H2].
  destruct (Bytes.Equal n bucket).
  - intro E. injection E as <-. now apply ascending_iff.
  - now apply IH.
Qed.

Lemma wf_store_bucket (n : bytes) (p : bolt.pairs) (d : bolt.DB) :
  wf (mkStore d) = true -> StronglySorted key_lt p ->
  wf (mkStore (bolt.store_bucket n p d)) = true.
Proof.
  unfold wf. simpl. intros H Hp. apply ascending_iff in Hp.
  induction d as [|[m q] d IH]; simpl in *.
  - now rewrite Hp.
  - apply andb_true_iff in H. destruct H as [H1 H2].
    destruct (Bytes.Equal m n); simpl.
    + now rewrite Hp, H2.
    + now rewrite H1, IH.
Qed.

(** ** What each facade call computes on a bucket that exists *)

Section Existing.

Variables (s : Store) (bucket : bytes) (p : bolt.pairs).
Hypothesis Hb : has_bucket s bucket p.

Lemma Get_existing (key : bytes) :
  Get s bucket key =
    (Returns (bolt.get key p,
              match bolt.get key p with None => Some ErrNotfound | Some _ => None end),
     s).
Proof.
  unfold Get, commit, bolt.DB_View, bolt.Tx_Bucket, bolt.Bucket_Get, bolt.bucket_pairs.
  red in Hb. destruct s as [d]. cbn in *. rewrite !Hb. cbn.
  destruct (bolt.get key p); reflexivity.
Qed.

Lemma Save_accepted (key val : bytes) :
  accepted_key key = true -> accepted_value val = true ->
  Save s bucket key val =
    (Returns None, mkStore (bolt.store_bucket bucket (bolt.put key val p) (db s))).
Proof.
  unfold accepted_key, accepted_value. intros Hk Hv.
  apply andb_true_iff in Hk. destruct Hk as [Hk1 Hk2].
  apply negb_true_iff in Hk1, Hk2, Hv.
  unfold Save, commit, bolt.DB_Update, bolt.Tx_Bucket, bolt.Bucket_Put, bolt.bucket_pairs.
  red in Hb. destruct s as [d]. cbn in *. rewrite !Hb. cbn.
  now rewrite Hk1, Hk2, Hv.
Qed.

Lemma Save_rejected (key val : bytes) :
  accepted_key key && accepted_value val = false ->
  exists e, Save s bucket key val = (Returns (Some e), s).
Proof.
  unfold accepted_key, accepted_value. intros H.
  unfold Save, commit, bolt.DB_Update, bolt.Tx_Bucket, bolt.Bucket_Put, bolt.bucket_pairs.
  red in Hb. destruct s as [d]. cbn in *. rewrite !Hb. cbn.
  destruct (length key =? 0)%nat; [cbn; now eexists|].
  destruct (Z.of_nat (length key) >? bolt.MaxKeySize); [cbn; now eexists|].
  destruct (Z.of_nat (length val) >? _); [cbn; now eexists|].
  discriminate.
Qed.

Lemma Delete_existing (key : bytes) :
  Delete s bucket key = (Returns (Some ErrTxNotWritable), s).
Proof.
  unfold Delete, commit, bolt.DB_View, bolt.Tx_Bucket, bolt.Bucket_Delete.
  red in Hb. destruct s as [d]. cbn in *. now rewrite !Hb.
Qed.

End Existing.

Lemma Save_has_bucket (s : Store) (bucket key val : bytes) (p : bolt.pairs) :
  has_bucket s bucket p ->
  exists p', has_bucket (after (Save s bucket key val)) bucket p' /\
    bolt.get key p' =
      (if accepted_key key && accepted_value val then Some val else bolt.get key p) /\
    forall k, k <> key -> bolt.get k p' = bolt.get k p.
Proof.
  intro Hb. destruct (accepted_key key && accepted_value val) eqn:E.
  - apply andb_true_iff in E. destruct E as [E1 E2].
    rewrite (Save_accepted s bucket p Hb key val E1 E2). unfold after, has_bucket. simpl.
    exists (bolt.put key val p). split; [apply lookup_store_same|]. split.
    + apply get_put_same.
    + intros k Hk. now apply get_put_other.
  - destruct (Save_rejected s bucket p Hb key val E) as [e ->].
    exists p. now repeat split.
Qed.

Lemma exec_has_bucket (s : Store) (bucket : bytes) (p : bolt.pairs) (o : op) (key : bytes) :
  has_bucket s bucket p ->
  exists p', has_bucket (exec bucket s o) bucket p' /\
    bolt.get key p' =
      match o with
      | OpSave k v =>
          if Bytes.Equal k key && (accepted_key k && accepted_value v)
          then Some v else bolt.get key p
      | OpGet _ => bolt.get key p
      end.
Proof.
  intro Hb. destruct o as [k v|k]; cbn [exec].
  - destruct (Save_has_bucket s bucket k v p Hb) as (p' & Hp' & Hsame & Hother).
    exists p'. split; [exact Hp'|].
    destruct (Bytes.Equal k key) eqn:E; simpl.
    + apply Equal_true_iff in E. now subst.
    + apply Equal_false_iff in E. apply Hother. congruence.
  - rewrite (Get_existing s bucket p Hb). now exists p.
Qed.

(** ** Save and Get *)

(** C1, as the code has it: on an existing bucket whose pairs have keys the
    engine accepts and values of at most 2^24 bytes, after any sequence of
    [Save] and [Get] calls with values of at most 2^24 bytes, [Get] of a key
    returns the value of the most recent [Save] on that key that the engine
    accepted (key not empty and at most 32768 bytes), and what it returned
    before the sequence when there is none; a [Save] that is not accepted
    returns an error and leaves the store as it was.  Larger values are left
    out: the engine accepts them up to 2^31-2 bytes, but reading them back is
    outside what the model of the engine covers. *)
Theorem Get_returns_last_accepted_Save (s : Store) (bucket : bytes) (p : bolt.pairs) :
  has_bucket s bucket p ->
  small_pairs p = true ->
  (forall ops key,
     small_ops ops = true ->
     fst (Get (run bucket ops s) bucket key) =
       match last_saved key ops with
       | Some v => Returns (Some v, None)
       | None => fst (Get s bucket key)
       end) /\
  (forall key val,
     accepted_key key && accepted_value val = false ->
     exists e, Save s bucket key val = (Returns (Some e), s)).
Proof.
  intros Hb _. split; [|intros key val; now apply (Save_rejected s bucket p)].
  intros ops key _. revert s p Hb.
  induction ops as [|o ops IH]; intros s p Hb; [reflexivity|].
  unfold run in *. cbn [fold_left last_saved].
  destruct (exec_has_bucket s bucket p o key Hb) as (p' & Hp' & Hget).
  rewrite (IH _ _ Hp').
  destruct (last_saved key ops); [reflexivity|].
  rewrite (Get_existing _ bucket p' Hp'), (Get_existing s bucket p Hb). cbn [fst].
  rewrite Hget. destruct o as [k v|k]; [|reflexivity].
  destruct (Bytes.Equal k key && (accepted_key k && accepted_value v)); reflexivity.
Qed.

Lemma Get_returns_last_accepted_Save_witness :
  has_bucket s_acb b_ [(k_a, [x01]); (k_b, [x02]); (k_c, [x03])] /\
  small_pairs [(k_a, [x01]); (k_b, [x02]); (k_c, [x03])] = true /\
  small_ops [OpSave k_b [x07]; OpGet k_b; OpSave k_a [x09]; OpSave [] [x08]] = true /\
  fst (Get (run b_ [OpSave k_b [x07]; OpGet k_b; OpSave k_a [x09]; OpSave [] [x08]] s_acb)
           b_ k_b) = Returns (Some [x07], None).
Proof.
  split; [reflexivity|]. split; [reflexivity|]. split; [reflexivity|].
  exact (proj1 (Get_returns_last_accepted_Save s_acb b_ _ eq_refl eq_refl)
           [OpSave k_b [x07]; OpGet k_b; OpSave k_a [x09]; OpSave [] [x08]] k_b eq_refl).
Defined.

(** C1 as stated fails on the empty key: [Save] is refused with
    [ErrKeyRequired] and the following [Get] finds nothing. *)
Lemma Save_empty_key_not_read_back :
  Save s0 b_ [] [x01] = (Returns (Some ErrKeyRequired), s0) /\
  fst (Get (after (Save s0 b_ [] [x01])) b_ []) = Returns (None, Some ErrNotfound) /\
  fst (Get (after (Save s0 b_ [] [x01])) b_ []) <> Returns (Some [x01], None).
Proof. repeat split; discriminate. Qed.

(** ** Get on an absent key *)

(** C2, as the code has it: on an existing bucket, [Get] of a key that no
    pair of the bucket has returns a [nil] value and the error value
    [ErrNotfound]; it returns, it does not panic, and the store is as before. *)
Theorem Get_absent_key_NotFound (s : Store) (bucket key : bytes) (p : bolt.pairs) :
  has_bucket s bucket p ->
  (forall v, ~ In (key, v) p) ->
  Get s bucket key = (Returns (None, Some ErrNotfound), s).
Proof.
  intros Hb Hk. rewrite (Get_existing s bucket p Hb).
  destruct (bolt.get key p) as [v|] eqn:E; [|reflexivity].
  apply get_In in E. now apply Hk in E.
Qed.

Lemma Get_absent_key_NotFound_witness :
  Get s_acb b_ [x7a] = (Returns (None, Some ErrNotfound), s_acb).
Proof.
  apply (Get_absent_key_NotFound s_acb b_ [x7a] [(k_a, [x01]); (k_b, [x02]); (k_c, [x03])]).
  - reflexivity.
  - intros v [H|[H|[H|[]]]]; discriminate.
Defined.

(** C2 as stated fails on an absent bucket: [Get] panics there. *)
Lemma Get_absent_bucket_panics :
  Get NewStore b_ k_a = (Panics NilPointerDereference, NewStore) /\
  fst (Get NewStore b_ k_a) <> Returns (None, Some ErrNotfound).
Proof. split; [reflexivity | discriminate]. Qed.

(** ** Delete *)

(** C3 on the code: [Delete] runs in a read-only transaction, so the engine
    refuses it.  The key stays, and [Delete] returns an error also for a key
    that is absent. *)
Theorem Delete_removes_nothing :
  Delete s_acb b_ k_b = (Returns (Some ErrTxNotWritable), s_acb) /\
  fst (Get (after (Delete s_acb b_ k_b)) b_ k_b) = Returns (Some [x02], None) /\
  Delete s_acb b_ [x7a] = (Returns (Some ErrTxNotWritable), s_acb).
Proof. repeat split. Qed.

(** ** Absent bucket *)

(** C10: on a bucket that does not exist, every operation of the facade but
    [CreateBucketIfNotExist] panics on the nil bucket, in both copies; none
    returns an error. *)
Theorem absent_bucket_panics (s : Store) (bucket : bytes) :
  bolt.lookup_bucket bucket (db s) = None ->
  (forall key, Incr s bucket key = (Panics NilPointerDereference, s)) /\
  (forall key val, Save s bucket key val = (Panics NilPointerDereference, s)) /\
  (forall key, Get s bucket key = (Panics NilPointerDereference, s)) /\
  (forall key, Delete s bucket key = (Panics NilPointerDereference, s)) /\
  (forall S (next : visitor S) st,
     Scan s bucket next st = (Panics NilPointerDereference, s)) /\
  (forall S prefix (next : visitor S) st,
     FindPrefix s bucket prefix next st = (Panics NilPointerDereference, s)) /\
  (forall S start end_ (next : visitor S) st,
     FindBetween s bucket start end_ next st = (Panics NilPointerDereference, s)) /\
  (forall key, Singleton.Incr s bucket key = (Panics NilPointerDereference, s)) /\
  (forall key val, Singleton.Save s bucket key val = (Panics NilPointerDereference, s)).
Proof.
  intro H. destruct s as [d]. cbn in H.
  repeat split; intros;
    unfold Incr, Save, Get, Delete, Scan, FindPrefix, FindBetween,
      Singleton.Incr, Singleton.Save, commit, bolt.DB_Update, bolt.DB_View,
      bolt.Tx_Bucket, bolt.Bucket_Get, bolt.Bucket_Put, bolt.Bucket_Delete,
      bolt.Bucket_ForEach, bolt.Bucket_Cursor;
    cbn; rewrite ?H; try reflexivity.
  destruct (Bytes.Compare start end_); cbn; rewrite ?H; reflexivity.
Qed.

Lemma absent_bucket_panics_witness :
  Get NewStore b_ k_a = (Panics NilPointerDereference, NewStore) /\
  Scan NewStore b_ (fun _ _ (st : unit) => (true, st)) tt
    = (Panics NilPointerDereference, NewStore).
Proof.
  pose proof (absent_bucket_panics NewStore b_ eq_refl) as H.
  split; [apply H | apply (proj1 (proj2 (proj2 (proj2 (proj2 H)))))].
Defined.

(** ** Scans *)

(** The cursor calls behind [for_cursor]: after [c.Seek(k)] the position is
    [seek k] of the bucket, and [c.Next()] moves from a position to its tail. *)
Lemma Cursor_Seek_pos (c : bolt.Cursor) (k : bytes) :
  bolt.pos (fst (bolt.Cursor_Seek c k)) = bolt.seek k (bolt.elems c) /\
  snd (bolt.Cursor_Seek c k) = hd_error (bolt.seek k (bolt.elems c)).
Proof. split; reflexivity. Qed.

Lemma Cursor_Next_pos (c : bolt.Cursor) (e : bolt.entry) (p : bolt.pairs) :
  bolt.pos c = e :: p ->
  bolt.pos (fst (bolt.Cursor_Next c)) = p /\ snd (bolt.Cursor_Next c) = hd_error p.
Proof. unfold bolt.Cursor_Next. intros ->. split; reflexivity. Qed.

Section Walk.

Context {S : Type} (next : visitor S).

Lemma for_cursor_take_while (cond : bytes -> bool) (p : bolt.pairs) (st : S) :
  for_cursor cond next p st = bolt.for_each (eof_unless next) (take_while cond p) st.
Proof.
  revert st. induction p as [|[k v] p IH]; intro st; simpl; [reflexivity|].
  destruct (cond k); [|reflexivity]. simpl. unfold eof_unless at 1.
  destruct (next k v st) as [c st']. destruct c; simpl; [apply IH | reflexivity].
Qed.

Lemma for_each_recording (L : bolt.pairs) (st : S) (log : list (bolt.entry * bool)) :
  bolt.for_each (eof_unless (recording next)) L (st, log) =
    (fst (bolt.for_each (eof_unless next) L st),
     (snd (bolt.for_each (eof_unless next) L st), log ++ trace next L st)).
Proof.
  revert st log. induction L as [|[k v] L IH]; intros st log; simpl.
  - now rewrite app_nil_r.
  - unfold eof_unless at 1 3 5. unfold recording at 1.
    destruct (next k v st) as [c st']. destruct c; simpl.
    + rewrite IH. now rewrite <- app_assoc.
    + reflexivity.
Qed.

Lemma trace_scan_of (L : bolt.pairs) (st : S) : scan_of L (trace next L st).
Proof.
  revert st. induction L as [|[k v] L IH]; intro st.
  - repeat split; [now exists [] | constructor | now left].
  - simpl. destruct (next k v st) as [c st']. destruct c.
    + destruct (IH st') as ((rest & Hr) & Hf & Hl). repeat split.
      * exists rest. simpl. now rewrite <- Hr.
      * destruct (trace next L st') eqn:E; [constructor|].
        change (Forall (fun d : bolt.entry * bool => snd d = true)
                  ((k, v, true) :: removelast (p :: l))).
        now constructor.
      * destruct Hl as [Hl|(l & e & Hl)].
        -- left. simpl. now rewrite Hl.
        -- right. exists ((k, v, true) :: l), e. now rewrite Hl.
    + repeat split.
      * now exists L.
      * constructor.
      * right. now exists [], (k, v).
Qed.

Lemma stopped_cons_true (e : bolt.entry) (log : list (bolt.entry * bool)) :
  stopped ((e, true) :: log) -> stopped log.
Proof.
  intros (l & e' & H). destruct l as [|x l]; simpl in H.
  - discriminate.
  - injection H as _ H. now exists l, e'.
Qed.

(** The error of a scan tells whether the visitor stopped it. *)
Lemma for_each_error (L : bolt.pairs) (st : S) :
  (fst (bolt.for_each (eof_unless next) L st) = Some EOF /\ stopped (trace next L st)) \/
  (fst (bolt.for_each (eof_unless next) L st) = None /\ ~ stopped (trace next L st)).
Proof.
  revert st. induction L as [|[k v] L IH]; intro st; simpl.
  - right. split; [reflexivity|]. intros (l & e & H). now destruct l.
  - unfold eof_unless at 1 3. destruct (next k v st) as [c st']. destruct c; simpl.
    + destruct (IH st') as [[H1 (l & e & H2)]|[H1 H2]].
      * left. split; [exact H1|]. exists ((k, v, true) :: l), e. now rewrite H2.
      * right. split; [exact H1|]. intro H. now apply stopped_cons_true in H.
    + left. split; [reflexivity|]. now exists [], (k, v).
Qed.

End Walk.

Lemma filter_sorted (f : bolt.entry -> bool) (p : bolt.pairs) :
  StronglySorted key_lt p -> StronglySorted key_lt (filter f p).
Proof.
  induction 1 as [|e p Hs IH Hf]; simpl; [constructor|].
  destruct (f e); [|exact IH]. constructor; [exact IH|].
  rewrite Forall_forall in *. intros x Hx. apply filter_In in Hx. now apply Hf.
Qed.

Lemma filter_none (f : bolt.entry -> bool) (p : bolt.pairs) :
  Forall (fun e => f e = false) p -> filter f p = [].
Proof.
  induction 1 as [|e p He Hp IH]; simpl; [reflexivity|]. now rewrite He.
Qed.

Lemma take_while_seek_between (lo hi : bytes) (p : bolt.pairs) :
  StronglySorted key_lt p ->
  take_while (le_key hi) (bolt.seek lo p) = filter (fun e => between lo hi (fst e)) p.
Proof.
  intro Hs. induction Hs as [|[k v] p Hs IH Hf]; [reflexivity|].
  assert (Hsort : StronglySorted key_lt ((k, v) :: p)) by now constructor.
  simpl. unfold between at 1. simpl.
  rewrite (Compare_antisym k lo). destruct (Bytes.Compare k lo) eqn:E; simpl.
  - unfold le_key at 1.
    rewrite (seek_after lo k v p Hsort) in IH by congruence.
    destruct (Bytes.Compare k hi) eqn:F; try now rewrite IH.
    symmetry. apply filter_none. eapply Forall_impl; [|exact Hf].
    intros [k' v'] Hlt. unfold key_lt in Hlt. simpl in *. unfold between.
    assert (G : Bytes.Compare k' hi = Gt).
    { apply Compare_Gt_Lt. apply Compare_Gt_Lt in F. eapply Compare_Lt_trans; eauto. }
    rewrite G. apply andb_false_r.
  - exact IH.
  - unfold le_key at 1.
    rewrite (seek_after lo k v p Hsort) in IH by congruence.
    destruct (Bytes.Compare k hi) eqn:F; try now rewrite IH.
    symmetry. apply filter_none. eapply Forall_impl; [|exact Hf].
    intros [k' v'] Hlt. unfold key_lt in Hlt. simpl in *. unfold between.
    assert (G : Bytes.Compare k' hi = Gt).
    { apply Compare_Gt_Lt. apply Compare_Gt_Lt in F. eapply Compare_Lt_trans; eauto. }
    rewrite G. apply andb_false_r.
Qed.

Lemma take_while_seek_prefix (prefix : bytes) (p : bolt.pairs) :
  StronglySorted key_lt p ->
  take_while (fun k => Bytes.HasPrefix k prefix) (bolt.seek prefix p) =
    filter (fun e => Bytes.HasPrefix (fst e) prefix) p.
Proof.
  intro Hs. induction Hs as [|[k v] p Hs IH Hf]; [reflexivity|].
  assert (Hsort : StronglySorted key_lt ((k, v) :: p)) by now constructor.
  assert (Hgap : Bytes.Compare k prefix <> Lt -> Bytes.HasPrefix k prefix = false ->
                 filter (fun e => Bytes.HasPrefix (fst e) prefix) p = []).
  { intros H1 H2. apply filter_none. eapply Forall_impl; [|exact Hf].
    intros [k' v'] Hlt. unfold key_lt in Hlt. simpl in *.
    now apply (HasPrefix_gap prefix k k'). }
  simpl. destruct (Bytes.Compare k prefix) eqn:E; simpl.
  - rewrite (seek_after prefix k v p Hsort) in IH by congruence.
    destruct (Bytes.HasPrefix k prefix) eqn:F; [now rewrite IH|].
    symmetry. apply Hgap; congruence.
  - destruct (Bytes.HasPrefix k prefix) eqn:F; [|exact IH].
    now apply HasPrefix_not_Lt in F.
  - rewrite (seek_after prefix k v p Hsort) in IH by congruence.
    destruct (Bytes.HasPrefix k prefix) eqn:F; [now rewrite IH|].
    symmetry. apply Hgap; congruence.
Qed.

Section ExistingScans.

Variables (s : Store) (bucket : bytes) (p : bolt.pairs).
Hypothesis Hb : has_bucket s bucket p.
Context {S : Type} (next : visitor S) (st : S).

Ltac open_scan :=
  unfold Scan, FindPrefix, FindBetween, commit, bolt.DB_View, bolt.Tx_Bucket,
    bolt.Bucket_ForEach, bolt.Bucket_Cursor, bolt.Cursor_Seek, bolt.bucket_pairs;
  red in Hb; destruct s as [d]; cbn in *; rewrite !Hb; cbn.

Lemma Scan_existing :
  Scan s bucket next st = (Returns (bolt.for_each (eof_unless next) p st), s).
Proof.
  open_scan. now destruct (bolt.for_each (eof_unless next) p st).
Qed.

Lemma FindPrefix_existing (prefix : bytes) :
  FindPrefix s bucket prefix next st =
    (Returns (bolt.for_each (eof_unless next)
                (take_while (fun k => Bytes.HasPrefix k prefix) (bolt.seek prefix p)) st),
     s).
Proof.
  rewrite <- for_cursor_take_while. open_scan.
  now destruct (for_cursor _ next (bolt.seek prefix p) st).
Qed.

Lemma FindBetween_existing (start end_ : bytes) :
  FindBetween s bucket start end_ next st =
    (Returns (bolt.for_each (eof_unless next)
                (match Bytes.Compare start end_ with
                 | Gt => take_while (le_key start) (bolt.seek end_ p)
                 | _ => take_while (le_key end_) (bolt.seek start p)
                 end) st),
     s).
Proof.
  open_scan.
  destruct (Bytes.Compare start end_); cbn; rewrite ?Hb; cbn;
    rewrite <- for_cursor_take_while; unfold le_key;
    match goal with |- context [for_cursor ?c next ?l st] =>
      now destruct (for_cursor c next l st) end.
Qed.

End ExistingScans.

(** A scan that walks [L] visits [L] in order until the visitor says [false],
    and returns [io.EOF] exactly when the visitor said [false]. *)
Lemma walk_log {S : Type} (s : Store) (L : bolt.pairs) (next : visitor S) (st : S)
    (r : outcome (option error * S) * Store)
    (r_rec : outcome (option error * (S * list (bolt.entry * bool))) * Store) :
  r = (Returns (bolt.for_each (eof_unless next) L st), s) ->
  r_rec = (Returns (bolt.for_each (eof_unless (recording next)) L (st, [])), s) ->
  exists err st' log,
    scan_result s r r_rec err st' log /\ scan_of L log /\
    (stopped log -> err = Some EOF) /\ (~ stopped log -> err = None).
Proof.
  intros -> ->. rewrite for_each_recording. simpl.
  exists (fst (bolt.for_each (eof_unless next) L st)),
         (snd (bolt.for_each (eof_unless next) L st)), (trace next L st).
  split; [split; [now rewrite <- surjective_pairing | reflexivity]|].
  split; [apply trace_scan_of|].
  destruct (for_each_error next L st) as [[H1 H2]|[H1 H2]]; split; intro H;
    try assumption; contradiction.
Qed.

(** C6: on an existing bucket, [Scan] calls the visitor on the pairs of the
    bucket in strictly ascending key order, one call for each pair, up to the
    end or up to the first call that answers [false]; the pairs are those
    that [Get] finds. *)
Theorem Scan_visits_in_order {S : Type} (s : Store) (bucket : bytes) (p : bolt.pairs)
    (next : visitor S) (st : S) :
  wf s = true -> has_bucket s bucket p ->
  StronglySorted key_lt p /\
  (forall k v, In (k, v) p <-> fst (Get s bucket k) = Returns (Some v, None)) /\
  exists err st' log,
    scan_result s (Scan s bucket next st) (Scan s bucket (recording next) (st, []))
      err st' log /\
    scan_of p log.
Proof.
  intros Hwf Hb. pose proof (wf_bucket s bucket p Hwf Hb) as Hs.
  split; [exact Hs|]. split.
  - intros k v. rewrite (Get_existing s bucket p Hb). simpl. split.
    + intro H. now rewrite (In_get k v p Hs H).
    + destruct (bolt.get k p) as [v'|] eqn:E; [|discriminate].
      intro H. injection H as ->. now apply get_In.
  - destruct (walk_log s p next st _ _ (Scan_existing s bucket p Hb next st)
                (Scan_existing s bucket p Hb (recording next) (st, [])))
      as (err & st' & log & H1 & H2 & _).
    now exists err, st', log.
Qed.

Lemma Scan_visits_in_order_witness :
  exists err st' log,
    scan_result s_acb
      (Scan s_acb b_ (fun k _ (n : nat) => (negb (Bytes.Equal k k_b), Datatypes.S n)) O)
      (Scan s_acb b_
         (recording (fun k _ (n : nat) => (negb (Bytes.Equal k k_b), Datatypes.S n))) (O, []))
      err st' log /\
    scan_of [(k_a, [x01]); (k_b, [x02]); (k_c, [x03])] log.
Proof.
  apply (Scan_visits_in_order s_acb b_ [(k_a, [x01]); (k_b, [x02]); (k_c, [x03])]);
    reflexivity.
Defined.

(** C9: on an existing bucket, [FindPrefix] calls the visitor on the pairs
    whose key starts with [prefix], and on no other pair, in strictly
    ascending key order, one call for each, up to the end or up to the first
    call that answers [false]. *)
Theorem FindPrefix_visits_prefixed {S : Type} (s : Store) (bucket : bytes)
    (p : bolt.pairs) (prefix : bytes) (next : visitor S) (st : S) :
  wf s = true -> has_bucket s bucket p ->
  exists err st' log,
    scan_result s (FindPrefix s bucket prefix next st)
      (FindPrefix s bucket prefix (recording next) (st, [])) err st' log /\
    scan_of (filter (fun e => Bytes.HasPrefix (fst e) prefix) p) log /\
    StronglySorted key_lt (filter (fun e => Bytes.HasPrefix (fst e) prefix) p) /\
    Forall (fun d => Bytes.HasPrefix (fst (fst d)) prefix = true) log.
Proof.
  intros Hwf Hb. pose proof (wf_bucket s bucket p Hwf Hb) as Hs.
  pose proof (FindPrefix_existing s bucket p Hb next st prefix) as H1.
  pose proof (FindPrefix_existing s bucket p Hb (recording next) (st, []) prefix) as H2.
  rewrite (take_while_seek_prefix prefix p Hs) in H1, H2.
  destruct (walk_log s _ next st _ _ H1 H2) as (err & st' & log & R & L & _).
  exists err, st', log. repeat split; try apply R; try apply L.
  - now apply filter_sorted.
  - destruct L as ((rest & L) & _). apply Forall_forall. intros d Hd.
    assert (Hin : In (fst d) (filter (fun e => Bytes.HasPrefix (fst e) prefix) p)).
    { rewrite L. apply in_or_app. left. now apply in_map. }
    now apply filter_In in Hin.
Qed.

Lemma FindPrefix_visits_prefixed_witness :
  exists err st' log,
    scan_result s_foo
      (FindPrefix s_foo b_ k_fo (fun _ _ (n : nat) => (true, Datatypes.S n)) O)
      (FindPrefix s_foo b_ k_fo
         (recording (fun _ _ (n : nat) => (true, Datatypes.S n))) (O, []))
      err st' log /\
    scan_of (filter (fun e => Bytes.HasPrefix (fst e) k_fo)
               [(k_bar, []); (k_foe, []); (k_foo, []); (k_food, [])]) log /\
    StronglySorted key_lt
      (filter (fun e => Bytes.HasPrefix (fst e) k_fo)
         [(k_bar, []); (k_foe, []); (k_foo, []); (k_food, [])]) /\
    Forall (fun d => Bytes.HasPrefix (fst (fst d)) k_fo = true) log.
Proof.
  apply (FindPrefix_visits_prefixed s_foo b_
           [(k_bar, []); (k_foe, []); (k_foo, []); (k_food, [])]); reflexivity.
Defined.

(** C8: on an existing bucket, [FindBetween] gives the same result with the
    two bounds exchanged, and for [start <= end_] it calls the visitor on the
    pairs with [start <= key <= end_], both bounds included, in strictly
    ascending key order, one call for each, up to the end or up to the first
    call that answers [false]. *)
Theorem FindBetween_visits_range (s : Store) (bucket : bytes) (p : bolt.pairs) :
  wf s = true -> has_bucket s bucket p ->
  (forall (S : Type) (next : visitor S) (st : S) (start end_ : bytes),
     FindBetween s bucket start end_ next st = FindBetween s bucket end_ start next st) /\
  (forall (S : Type) (next : visitor S) (st : S) (start end_ : bytes),
     Bytes.Compare start end_ <> Gt ->
     exists err st' log,
       scan_result s (FindBetween s bucket start end_ next st)
         (FindBetween s bucket start end_ (recording next) (st, [])) err st' log /\
       scan_of (filter (fun e => between start end_ (fst e)) p) log /\
       StronglySorted key_lt (filter (fun e => between start end_ (fst e)) p)).
Proof.
  intros Hwf Hb. pose proof (wf_bucket s bucket p Hwf Hb) as Hs. split.
  - intros S next st start end_.
    rewrite !(FindBetween_existing s bucket p Hb).
    rewrite (Compare_antisym start end_).
    destruct (Bytes.Compare start end_) eqn:E; simpl; try reflexivity.
    apply Compare_Eq_iff in E. now subst.
  - intros S next st start end_ Hle.
    pose proof (FindBetween_existing s bucket p Hb next st start end_) as H1.
    pose proof (FindBetween_existing s bucket p Hb (recording next) (st, []) start end_)
      as H2.
    assert (E : match Bytes.Compare start end_ with
                | Gt => take_while (le_key start) (bolt.seek end_ p)
                | _ => take_while (le_key end_) (bolt.seek start p)
                end = filter (fun e => between start end_ (fst e)) p).
    { rewrite <- (take_while_seek_between start end_ p Hs).
      destruct (Bytes.Compare start end_); congruence. }
    rewrite E in H1, H2.
    destruct (walk_log s _ next st _ _ H1 H2) as (err & st' & log & R & L & _).
    exists err, st', log. repeat split; try apply R; try apply L.
    now apply filter_sorted.
Qed.

Lemma FindBetween_visits_range_witness :
  FindBetween s_ace b_ k_m k_b (fun k _ (l : list bytes) => (true, l ++ [k])) [] =
  FindBetween s_ace b_ k_b k_m (fun k _ (l : list bytes) => (true, l ++ [k])) [] /\
  exists err st' log,
    scan_result s_ace
      (FindBetween s_ace b_ k_b k_m (fun k _ (l : list bytes) => (true, l ++ [k])) [])
      (FindBetween s_ace b_ k_b k_m
         (recording (fun k _ (l : list bytes) => (true, l ++ [k]))) ([], []))
      err st' log /\
    scan_of (filter (fun e => between k_b k_m (fst e)) [(k_a, []); (k_c, []); (k_e, [])])
      log /\
    StronglySorted key_lt
      (filter (fun e => between k_b k_m (fst e)) [(k_a, []); (k_c, []); (k_e, [])]).
Proof.
  pose proof (FindBetween_visits_range s_ace b_ [(k_a, []); (k_c, []); (k_e, [])]
                eq_refl eq_refl) as [H1 H2].
  split; [apply H1 | apply H2; discriminate].
Defined.

Lemma false_is_last (log : list (bolt.entry * bool)) (e : bolt.entry) :
  Forall (fun d => snd d = true) (removelast log) -> In (e, false) log -> stopped log.
Proof.
  intros Hf Hin. destruct log as [|d log]; [contradiction|].
  rewrite (app_removelast_last d (l := d :: log)) in Hin by discriminate.
  apply in_app_or in Hin. destruct Hin as [Hin|[Hin|[]]].
  - rewrite Forall_forall in Hf. apply Hf in Hin. discriminate.
  - exists (removelast (d :: log)), e. rewrite <- Hin.
    apply app_removelast_last. discriminate.
Qed.

Lemma nothing_after_false (log l rest : list (bolt.entry * bool)) (e : bolt.entry) :
  Forall (fun d => snd d = true) (removelast log) ->
  log = l ++ (e, false) :: rest -> rest = [].
Proof.
  intros Hf ->. destruct rest as [|d rest]; [reflexivity|]. exfalso.
  rewrite removelast_app in Hf by discriminate.
  apply Forall_app in Hf. destruct Hf as [_ Hf].
  change (removelast ((e, false) :: d :: rest))
    with ((e, false) :: removelast (d :: rest)) in Hf.
  inversion Hf as [|? ? H _]. discriminate.
Qed.

Lemma all_true_unless_stopped (log : list (bolt.entry * bool)) :
  Forall (fun d => snd d = true) (removelast log) -> ~ stopped log ->
  Forall (fun d => snd d = true) log.
Proof.
  intros Hf Hn. destruct log as [|d log]; [constructor|].
  rewrite (app_removelast_last d (l := d :: log)) by discriminate.
  apply Forall_app. split; [exact Hf|]. constructor; [|constructor].
  destruct (last (d :: log) d) as [e [|]] eqn:E; [reflexivity|]. exfalso.
  apply Hn. exists (removelast (d :: log)), e. rewrite <- E.
  apply app_removelast_last. discriminate.
Qed.

(** A scan that walks [L] ends as [scan_ends] says. *)
Lemma walk_ends {S : Type} (s : Store) (L : bolt.pairs) (next : visitor S) (st : S)
    (r : outcome (option error * S) * Store)
    (r_rec : outcome (option error * (S * list (bolt.entry * bool))) * Store) :
  r = (Returns (bolt.for_each (eof_unless next) L st), s) ->
  r_rec = (Returns (bolt.for_each (eof_unless (recording next)) L (st, [])), s) ->
  exists err st' log, scan_result s r r_rec err st' log /\ scan_ends L err log.
Proof.
  intros -> ->. rewrite for_each_recording. simpl.
  exists (fst (bolt.for_each (eof_unless next) L st)),
         (snd (bolt.for_each (eof_unless next) L st)), (trace next L st).
  split; [split; [now rewrite <- surjective_pairing | reflexivity]|].
  pose proof (trace_scan_of next L st) as Hs.
  assert (Hf : Forall (fun d => snd d = true) (removelast (trace next L st)))
    by apply Hs.
  split; [exact Hs|]. split.
  { intros l e rest. now apply nothing_after_false. }
  destruct (for_each_error next L st) as [[H1 H2]|[H1 H2]]; rewrite H1; split; split.
  - intros _. destruct H2 as (l & e & H2). exists e. rewrite H2.
    apply in_or_app. right. now left.
  - reflexivity.
  - discriminate.
  - intro Hall. exfalso. destruct H2 as (l & e & H2).
    rewrite Forall_forall in Hall.
    assert (Hin : In (e, false) (trace next L st)).
    { rewrite H2. apply in_or_app. right. now left. }
    apply Hall in Hin. discriminate.
  - discriminate.
  - intros (e & Hin). exfalso. apply H2. now apply (false_is_last _ e).
  - intros _. now apply all_true_unless_stopped.
  - reflexivity.
Qed.

(** C7, as the code has it: on an existing bucket, each of [Scan],
    [FindPrefix] and [FindBetween] returns without a panic and leaves the
    store as it was; it calls the visitor on the pairs of its range in order
    and makes no call after an answer [false]; the error returned to the
    caller is [io.EOF] exactly when the visitor answered [false] at some
    call, and [nil] exactly when every call answered [true]. *)
Theorem scan_stopped_returns_EOF {S : Type} (s : Store) (bucket : bytes) (p : bolt.pairs)
    (next : visitor S) (st : S) :
  has_bucket s bucket p ->
  (exists err st' log,
     scan_result s (Scan s bucket next st) (Scan s bucket (recording next) (st, []))
       err st' log /\
     scan_ends p err log) /\
  (forall prefix, exists err st' log,
     scan_result s (FindPrefix s bucket prefix next st)
       (FindPrefix s bucket prefix (recording next) (st, [])) err st' log /\
     scan_ends (take_while (fun k => Bytes.HasPrefix k prefix) (bolt.seek prefix p))
       err log) /\
  (forall start end_, exists err st' log,
     scan_result s (FindBetween s bucket start end_ next st)
       (FindBetween s bucket start end_ (recording next) (st, [])) err st' log /\
     scan_ends (match Bytes.Compare start end_ with
                | Gt => take_while (le_key start) (bolt.seek end_ p)
                | _ => take_while (le_key end_) (bolt.seek start p)
                end) err log).
Proof.
  intro Hb. repeat split.
  - exact (walk_ends s p next st _ _ (Scan_existing s bucket p Hb next st)
             (Scan_existing s bucket p Hb (recording next) (st, []))).
  - intro prefix.
    exact (walk_ends s _ next st _ _ (FindPrefix_existing s bucket p Hb next st prefix)
             (FindPrefix_existing s bucket p Hb (recording next) (st, []) prefix)).
  - intros start end_.
    exact (walk_ends s _ next st _ _
             (FindBetween_existing s bucket p Hb next st start end_)
             (FindBetween_existing s bucket p Hb (recording next) (st, []) start end_)).
Qed.

Lemma scan_stopped_returns_EOF_witness :
  exists err st' log,
    scan_result s_acb
      (Scan s_acb b_ (fun k _ (n : nat) => (negb (Bytes.Equal k k_b), Datatypes.S n)) O)
      (Scan s_acb b_
         (recording (fun k _ (n : nat) => (negb (Bytes.Equal k k_b), Datatypes.S n))) (O, []))
      err st' log /\
    scan_ends [(k_a, [x01]); (k_b, [x02]); (k_c, [x03])] err log.
Proof.
  apply (scan_stopped_returns_EOF s_acb b_ [(k_a, [x01]); (k_b, [x02]); (k_c, [x03])]).
  reflexivity.
Defined.

(** C7 as stated fails: a visitor that answers [false] makes each scan return
    the error [io.EOF] to the caller. *)
Lemma scan_stop_is_an_error :
  Scan s_acb b_ (fun _ _ (st : unit) => (false, st)) tt = (Returns (Some EOF, tt), s_acb) /\
  FindPrefix s_acb b_ [] (fun _ _ (st : unit) => (false, st)) tt
    = (Returns (Some EOF, tt), s_acb) /\
  FindBetween s_acb b_ k_a k_c (fun _ _ (st : unit) => (false, st)) tt
    = (Returns (Some EOF, tt), s_acb) /\
  fst (Scan s_acb b_ (fun _ _ (st : unit) => (false, st)) tt) <> Returns (None, tt).
Proof. repeat split; discriminate. Qed.

(** ** Counters *)

Lemma Z_of_byte_of_Z (x : Z) : Z_of_byte (byte_of_Z x) = x mod 256.
Proof.
  unfold Z_of_byte, byte_of_Z.
  assert (H : 0 <= x mod 256 < 256) by (apply Z.mod_pos_bound; lia).
  destruct (Byte.of_N (Z.to_N (x mod 256))) as [b|] eqn:E.
  - apply Byte.to_of_N in E. rewrite E. apply Z2N.id. lia.
  - apply Byte.of_N_None_iff in E. lia.
Qed.

(** Bit [i] of byte number [k / 8] of [n], put back in its place. *)
Lemma byte_in_place_bit (n k i : Z) :
  0 <= k -> 0 <= i ->
  Z.testbit (Z.shiftl (Z.shiftr n k mod 2 ^ 8) k) i =
    (k <=? i) && (i <? k + 8) && Z.testbit n i.
Proof.
  intros Hk Hi. rewrite Z.shiftl_spec by exact Hi.
  destruct (Z.leb_spec k i) as [H|H].
  - rewrite Z.testbit_mod_pow2 by lia. rewrite Z.shiftr_spec by lia.
    replace (i - k + k) with i by lia.
    destruct (Z.ltb_spec (i - k) 8), (Z.ltb_spec i (k + 8)); try lia; reflexivity.
  - now rewrite Z.testbit_neg_r by lia.
Qed.

Lemma Uint64_counter_bytes (n : Z) :
  0 <= n <= MaxUint64 -> BigEndian.Uint64 (counter_bytes n) = Returns n.
Proof.
  unfold MaxUint64. intro Hn. unfold counter_bytes, BigEndian.Uint64. f_equal.
  rewrite !Z_of_byte_of_Z. change 256 with (2 ^ 8).
  rewrite <- (Z.shiftl_0_r (n mod 2 ^ 8)).
  rewrite <- (Z.shiftr_0_r n) at 1.
  apply Z.bits_inj'. intros i Hi.
  rewrite !Z.lor_spec, !byte_in_place_bit by lia.
  destruct (Z.testbit n i) eqn:T.
  - assert (Hlt : i < 64).
    { destruct (Z.lt_ge_cases i 64) as [H|H]; [exact H|].
      rewrite <- (Z.mod_small n (2 ^ 64)) in T by lia.
      rewrite Z.mod_pow2_bits_high in T by lia. discriminate. }
    repeat match goal with
           | |- context [?a <=? ?b] => destruct (Z.leb_spec a b); try lia
           | |- context [?a <? ?b] => destruct (Z.ltb_spec a b); try lia
           end; reflexivity.
  - now rewrite !andb_false_r.
Qed.

Lemma counter_bytes_accepted (n : Z) : accepted_value (counter_bytes n) = true.
Proof. reflexivity. Qed.

Section ExistingIncr.

Variables (s : Store) (bucket key : bytes) (p : bolt.pairs) (m : Z).
Hypothesis Hb : has_bucket s bucket p.
Hypothesis Hm : counter_is p key m.

Ltac open_incr :=
  unfold Incr, Singleton.Incr, commit, bolt.DB_Update, bolt.Tx_Bucket, bolt.Bucket_Get,
    bolt.Bucket_Put, bolt.bucket_pairs;
  red in Hb; destruct s as [d]; cbn [db bolt.root bolt.writable negb] in *;
  rewrite !Hb; cbn [bind];
  destruct Hm as [[Hg Hz]|(old & Hg & Hu)]; rewrite Hg; cbn [bind];
  rewrite ?Hu; cbn [bind]; rewrite <- ?Hz.

Lemma Incr_at_max :
  m = MaxUint64 -> Incr s bucket key = (Returns (MaxUint64, None), s).
Proof.
  intros Hmax. open_incr; rewrite Hmax; reflexivity.
Qed.

Lemma Incr_below_max :
  0 <= m < MaxUint64 -> accepted_key key = true ->
  Incr s bucket key =
    (Returns (m + 1, None),
     mkStore (bolt.store_bucket bucket (bolt.put key (counter_bytes (m + 1)) p) (db s))).
Proof.
  intros Hlt Hk. unfold accepted_key in Hk. apply andb_true_iff in Hk.
  destruct Hk as [Hk1 Hk2]. apply negb_true_iff in Hk1, Hk2.
  assert (Ha : add1_uint64 m = m + 1).
  { unfold add1_uint64. apply Z.mod_small. unfold MaxUint64 in Hlt. lia. }
  assert (Hne : (m =? MaxUint64) = false) by (apply Z.eqb_neq; lia).
  open_incr; rewrite ?Hne; rewrite ?Ha; cbn [bind BigEndian.PutUint64 make repeat];
    rewrite ?Hb; rewrite Hk1, Hk2; reflexivity.
Qed.

Lemma Singleton_Incr_below_max :
  0 <= m < MaxUint64 -> accepted_key key = true ->
  Singleton.Incr s bucket key =
    (Returns (m + 1, None),
     mkStore (bolt.store_bucket bucket (bolt.put key (counter_bytes (m + 1)) p) (db s))).
Proof.
  intros Hlt Hk. unfold accepted_key in Hk. apply andb_true_iff in Hk.
  destruct Hk as [Hk1 Hk2]. apply negb_true_iff in Hk1, Hk2.
  assert (Ha : add1_uint64 m = m + 1).
  { unfold add1_uint64. apply Z.mod_small. unfold MaxUint64 in Hlt. lia. }
  open_incr; rewrite ?Ha; cbn [bind BigEndian.PutUint64 make repeat];
    rewrite ?Hb; rewrite Hk1, Hk2; reflexivity.
Qed.

End ExistingIncr.

Lemma absent_counter_is (p : bolt.pairs) (key : bytes) :
  (forall v, ~ In (key, v) p) -> counter_is p key 0.
Proof.
  intro H. left. split; [|reflexivity].
  destruct (bolt.get key p) as [v|] eqn:E; [|reflexivity].
  apply get_In in E. now apply H in E.
Qed.

Section Counting.

Variable incr : Store -> bytes -> bytes -> outcome (Z * option error) * Store.
Variables (bucket key : bytes).
Hypothesis incr_below_max :
  forall s p m, has_bucket s bucket p -> counter_is p key m -> 0 <= m < MaxUint64 ->
    incr s bucket key =
      (Returns (m + 1, None),
       mkStore (bolt.store_bucket bucket (bolt.put key (counter_bytes (m + 1)) p) (db s))).

Lemma calls_counter (s : Store) (p : bolt.pairs) (n : nat) :
  has_bucket s bucket p -> counter_is p key 0 -> Z.of_nat n <= MaxUint64 ->
  exists p', has_bucket (calls incr n s bucket key) bucket p' /\
    counter_is p' key (Z.of_nat n) /\
    (n <> O -> bolt.get key p' = Some (counter_bytes (Z.of_nat n))).
Proof.
  intros Hb H0. induction n as [|n IH]; intro Hn.
  - exists p. now repeat split.
  - destruct IH as (p' & Hb' & Hc & _); [lia|].
    cbn [calls]. rewrite (incr_below_max _ p' (Z.of_nat n) Hb' Hc) by lia.
    replace (Z.of_nat n + 1) with (Z.of_nat (Datatypes.S n)) by lia.
    exists (bolt.put key (counter_bytes (Z.of_nat (Datatypes.S n))) p'). split.
    + unfold after, has_bucket. simpl. apply lookup_store_same.
    + split; [right|intros _; apply get_put_same].
      eexists. split; [apply get_put_same|]. apply Uint64_counter_bytes. lia.
Qed.

Lemma nth_call_counts (s : Store) (p : bolt.pairs) (n : nat) :
  has_bucket s bucket p -> counter_is p key 0 ->
  Z.of_nat (Datatypes.S n) <= MaxUint64 ->
  fst (incr (calls incr n s bucket key) bucket key)
    = Returns (Z.of_nat (Datatypes.S n), None) /\
  fst (Get (calls incr (Datatypes.S n) s bucket key) bucket key)
    = Returns (Some (counter_bytes (Z.of_nat (Datatypes.S n))), None).
Proof.
  intros Hb H0 Hn. split.
  - destruct (calls_counter s p n Hb H0) as (p' & Hb' & Hc & _); [lia|].
    rewrite (incr_below_max _ p' (Z.of_nat n) Hb' Hc) by lia.
    simpl fst. do 2 f_equal. lia.
  - destruct (calls_counter s p (Datatypes.S n) Hb H0 Hn) as (p' & Hb' & _ & Hg).
    rewrite (Get_existing _ bucket p' Hb'). now rewrite Hg.
Qed.

End Counting.

(** C4, as the code has it: on an existing bucket and for a key that the
    engine accepts (not empty, at most 32768 bytes) and that no pair has yet,
    the N-th of N calls of [Incr] in a row returns N with no error, for every
    N from 1 to 2^64-1, and after it the stored value is the eight bytes of N
    in big-endian order.  Both copies of [Incr] do so. *)
Theorem Incr_counts_from_fresh (s : Store) (bucket key : bytes) (p : bolt.pairs) (n : nat) :
  has_bucket s bucket p ->
  (forall v, ~ In (key, v) p) ->
  accepted_key key = true ->
  Z.of_nat (Datatypes.S n) <= MaxUint64 ->
  (fst (Incr (calls Incr n s bucket key) bucket key)
     = Returns (Z.of_nat (Datatypes.S n), None) /\
   fst (Get (calls Incr (Datatypes.S n) s bucket key) bucket key)
     = Returns (Some (counter_bytes (Z.of_nat (Datatypes.S n))), None)) /\
  (fst (Singleton.Incr (calls Singleton.Incr n s bucket key) bucket key)
     = Returns (Z.of_nat (Datatypes.S n), None) /\
   fst (Get (calls Singleton.Incr (Datatypes.S n) s bucket key) bucket key)
     = Returns (Some (counter_bytes (Z.of_nat (Datatypes.S n))), None)) /\
  length (counter_bytes (Z.of_nat (Datatypes.S n))) = 8%nat /\
  BigEndian.Uint64 (counter_bytes (Z.of_nat (Datatypes.S n)))
    = Returns (Z.of_nat (Datatypes.S n)).
Proof.
  intros Hb Hfresh Hk Hn. apply absent_counter_is in Hfresh.
  split; [|split; [|split]].
  - apply (nth_call_counts Incr bucket key) with (p := p); auto.
    intros s1 p1 m H1 H2 H3. now apply Incr_below_max.
  - apply (nth_call_counts Singleton.Incr bucket key) with (p := p); auto.
    intros s1 p1 m H1 H2 H3. now apply Singleton_Incr_below_max.
  - reflexivity.
  - apply Uint64_counter_bytes. lia.
Qed.

Lemma Incr_counts_from_fresh_witness :
  (fst (Incr (calls Incr 2 s0 b_ k_a) b_ k_a) = Returns (3, None) /\
   fst (Get (calls Incr 3 s0 b_ k_a) b_ k_a) = Returns (Some (counter_bytes 3), None)) /\
  (fst (Singleton.Incr (calls Singleton.Incr 2 s0 b_ k_a) b_ k_a) = Returns (3, None) /\
   fst (Get (calls Singleton.Incr 3 s0 b_ k_a) b_ k_a)
     = Returns (Some (counter_bytes 3), None)) /\
  length (counter_bytes 3) = 8%nat /\
  BigEndian.Uint64 (counter_bytes 3) = Returns 3.
Proof.
  apply (Incr_counts_from_fresh s0 b_ k_a [] 2).
  - reflexivity.
  - intros v [].
  - reflexivity.
  - vm_compute. discriminate.
Defined.

(** C4 as stated fails on the empty key: every call returns 1 together with
    [ErrKeyRequired], and nothing is stored. *)
Lemma Incr_empty_key_does_not_count :
  fst (Incr s0 b_ []) = Returns (1, Some ErrKeyRequired) /\
  fst (Incr (calls Incr 1 s0 b_ []) b_ []) = Returns (1, Some ErrKeyRequired) /\
  fst (Incr (calls Incr 1 s0 b_ []) b_ []) <> Returns (2, None) /\
  fst (Get (calls Incr 2 s0 b_ []) b_ []) = Returns (None, Some ErrNotfound).
Proof. repeat split; discriminate. Qed.

(** The first copy of [Incr] keeps a counter that is at the maximum. *)
Lemma Incr_saturates (s : Store) (bucket key old : bytes) (p : bolt.pairs) :
  has_bucket s bucket p ->
  bolt.get key p = Some old -> BigEndian.Uint64 old = Returns MaxUint64 ->
  Incr s bucket key = (Returns (MaxUint64, None), s) /\
  fst (Get (after (Incr s bucket key)) bucket key) = Returns (Some old, None).
Proof.
  intros Hb Hg Hu.
  assert (H : Incr s bucket key = (Returns (MaxUint64, None), s)).
  { apply (Incr_at_max s bucket key p MaxUint64 Hb); [|reflexivity].
    right. now exists old. }
  split; [exact H|]. rewrite H. unfold after. simpl snd.
  rewrite (Get_existing s bucket p Hb). now rewrite Hg.
Qed.

(** C5 on the code, at a counter primed to 0xFFFFFFFFFFFFFFFF: the first copy
    of [Incr] returns the maximum and leaves the store as it was; the second
    copy has no guard, returns 0 and stores eight zero bytes. *)
Theorem Incr_at_max_in_both_copies :
  fst (Get s_max b_ k_a) = Returns (Some (repeat xff 8), None) /\
  Incr s_max b_ k_a = (Returns (MaxUint64, None), s_max) /\
  Singleton.Incr s_max b_ k_a = (Returns (0, None), after (Save s0 b_ k_a (repeat x00 8))) /\
  fst (Get (after (Singleton.Incr s_max b_ k_a)) b_ k_a)
    = Returns (Some (repeat x00 8), None).
Proof. repeat split. Qed.

(** ** The invariant *)

Lemma wf_NewStore : wf NewStore = true.
Proof. reflexivity. Qed.

Lemma wf_put (s : Store) (bucket key val : bytes) (p : bolt.pairs) :
  wf s = true -> has_bucket s bucket p ->
  wf (mkStore (bolt.store_bucket bucket (bolt.put key val p) (db s))) = true.
Proof.
  intros Hwf Hb. apply wf_store_bucket; [now destruct s|].
  apply put_sorted. now apply (wf_bucket s bucket).
Qed.

Ltac norm Hb :=
  repeat (progress (cbn [bind db bolt.root bolt.writable negb fst snd
                         make repeat BigEndian.PutUint64]; rewrite ?Hb)).

Ltac open_write d p Hb :=
  unfold unchanged_or_put, has_bucket, after, Save, Incr, Singleton.Incr, Singleton.Save,
    commit, bolt.DB_Update, bolt.Tx_Bucket, bolt.Bucket_Get, bolt.Bucket_Put,
    bolt.bucket_pairs;
  cbn [db bolt.root bolt.writable negb];
  destruct (bolt.lookup_bucket _ d) as [p|] eqn:Hb; norm Hb; [|now left].

Ltac put_or_not Hb :=
  destruct (length _ =? 0)%nat; norm Hb; [now left|];
  destruct (Z.of_nat (length _) >? bolt.MaxKeySize); norm Hb; [now left|];
  destruct (Z.of_nat (length _) >? bolt.MaxValueSize); norm Hb; [now left|];
  right; do 2 eexists; split; reflexivity.

Lemma Save_store (s : Store) (bucket key val : bytes) :
  unchanged_or_put s (after (Save s bucket key val)) bucket key.
Proof.
  destruct s as [d]. open_write d p Hb. put_or_not Hb.
Qed.

Lemma Incr_store (s : Store) (bucket key : bytes) :
  unchanged_or_put s (after (Incr s bucket key)) bucket key.
Proof.
  destruct s as [d]. open_write d p Hb.
  destruct (bolt.get key p) as [old|]; norm Hb;
    [destruct (BigEndian.Uint64 old) as [m|]; norm Hb; [|now left]|];
    (destruct (_ =? MaxUint64); norm Hb; [now left|]); put_or_not Hb.
Qed.

Lemma Singleton_Incr_store (s : Store) (bucket key : bytes) :
  unchanged_or_put s (after (Singleton.Incr s bucket key)) bucket key.
Proof.
  destruct s as [d]. open_write d p Hb.
  destruct (bolt.get key p) as [old|]; norm Hb;
    [destruct (BigEndian.Uint64 old) as [m|]; norm Hb; [|now left]|];
    put_or_not Hb.
Qed.

Lemma wf_unchanged_or_put (s s' : Store) (bucket key : bytes) :
  wf s = true -> unchanged_or_put s s' bucket key -> wf s' = true.
Proof.
  intros Hwf [->|(p & data & Hb & ->)]; [exact Hwf|]. now apply wf_put.
Qed.

Lemma wf_CreateBucketIfNotExist (s : Store) (bucket : bytes) :
  wf s = true -> wf (after (CreateBucketIfNotExist s bucket)) = true.
Proof.
  destruct s as [d]. unfold wf, after, CreateBucketIfNotExist, commit, bolt.DB_Update,
    bolt.Tx_CreateBucketIfNotExists. cbn [db bolt.root bolt.writable negb].
  intro Hwf. destruct (length bucket =? 0)%nat; [exact Hwf|].
  destruct (bolt.lookup_bucket bucket d); [exact Hwf|]. cbn.
  rewrite forallb_app, Hwf. reflexivity.
Qed.

(** Every store that the facade builds from a new one satisfies the invariant. *)
Lemma wf_Save (s : Store) (bucket key val : bytes) :
  wf s = true -> wf (after (Save s bucket key val)) = true.
Proof. intro H. exact (wf_unchanged_or_put _ _ _ _ H (Save_store s bucket key val)). Qed.

Lemma wf_Incr (s : Store) (bucket key : bytes) :
  wf s = true -> wf (after (Incr s bucket key)) = true.
Proof. intro H. exact (wf_unchanged_or_put _ _ _ _ H (Incr_store s bucket key)). Qed.

Lemma wf_Singleton_Incr (s : Store) (bucket key : bytes) :
  wf s = true -> wf (after (Singleton.Incr s bucket key)) = true.
Proof.
  intro H. exact (wf_unchanged_or_put _ _ _ _ H (Singleton_Incr_store s bucket key)).
Qed.

Lemma reachable_wf (s : Store) : reachable s -> wf s = true.
Proof.
  induction 1;
    auto using wf_NewStore, wf_CreateBucketIfNotExist, wf_Save, wf_Incr, wf_Singleton_Incr.
Qed.

(** The engine's delete in a writable transaction does remove the key. *)
Lemma get_del_same (k : bytes) (p : bolt.pairs) :
  StronglySorted key_lt p -> bolt.get k (bolt.del k p) = None.
Proof.
  unfold bolt.get. induction 1 as [|[k' v'] p Hs IH Hf]; simpl; [reflexivity|].
  destruct (Bytes.Compare k' k) eqn:E; simpl.
  - apply Compare_Eq_iff in E. subst k'.
    destruct p as [|[k1 v1] p]; [reflexivity|].
    inversion Hf as [|? ? Hlt _]; subst. unfold key_lt in Hlt. simpl in *.
    assert (Hne : Bytes.Equal k k1 = false).
    { apply Equal_false_iff. now apply Compare_Lt_neq. }
    apply Compare_Gt_Lt in Hlt. now rewrite Hlt, Hne.
  - rewrite E. exact IH.
  - rewrite E.
    assert (Hne : Bytes.Equal k k' = false).
    { apply Equal_false_iff. intros ->. rewrite Compare_refl in E. discriminate. }
    now rewrite Hne.
Qed.

(** * Further properties of the facade *)

(** ** What a call does, by the state of the bucket *)

Lemma Get_lookup (s : Store) (bucket key : bytes) :
  Get s bucket key =
    match bolt.lookup_bucket bucket (db s) with
    | Some p =>
        (Returns (bolt.get key p,
                  match bolt.get key p with None => Some ErrNotfound | Some _ => None end),
         s)
    | None => (Panics NilPointerDereference, s)
    end.
Proof.
  destruct (bolt.lookup_bucket bucket (db s)) as [p|] eqn:Hb.
  - now apply Get_existing.
  - destruct s as [d]. unfold Get, commit, bolt.DB_View, bolt.Tx_Bucket. cbn in *.
    now rewrite Hb.
Qed.

Lemma Get_found (s : Store) (bucket key val : bytes) :
  fst (Get s bucket key) = Returns (Some val, None) <->
  exists p, has_bucket s bucket p /\ bolt.get key p = Some val.
Proof.
  rewrite Get_lookup. unfold has_bucket.
  destruct (bolt.lookup_bucket bucket (db s)) as [p|]; simpl.
  - split.
    + destruct (bolt.get key p) as [v|] eqn:E; [|discriminate].
      intro H. injection H as ->. now exists p.
    + intros (p' & H & Hg). injection H as <-. now rewrite Hg.
  - split; [discriminate | intros (p' & H & _); discriminate].
Qed.

Lemma Returns_inj {A : Type} (x y : A) : Returns x = Returns y -> x = y.
Proof. congruence. Qed.

Lemma byte_range (b : byte) : 0 <= Z_of_byte b < 256.
Proof.
  unfold Z_of_byte. pose proof (Byte.to_N_bounded b). lia.
Qed.

Lemma shifted_byte_bit (v k i : Z) :
  0 <= v < 256 -> 0 <= k -> 0 <= i -> Z.testbit (Z.shiftl v k) i = true -> k <= i < k + 8.
Proof.
  intros Hv Hk Hi. rewrite Z.shiftl_spec by exact Hi.
  destruct (Z.lt_ge_cases i k) as [H|H].
  - rewrite Z.testbit_neg_r by lia. discriminate.
  - destruct (Z.lt_ge_cases (i - k) 8) as [H8|H8]; [lia|].
    rewrite <- (Z.mod_small v (2 ^ 8)) by (change (2 ^ 8) with 256; lia).
    rewrite Z.mod_pow2_bits_high by lia. discriminate.
Qed.

(** [Uint64] returns a value of the type [uint64]. *)
Lemma Uint64_range (b : bytes) (m : Z) :
  BigEndian.Uint64 b = Returns m -> 0 <= m <= MaxUint64.
Proof.
  unfold BigEndian.Uint64.
  destruct b as [|b0 [|b1 [|b2 [|b3 [|b4 [|b5 [|b6 [|b7 rest]]]]]]]]; try discriminate.
  intro H. apply Returns_inj in H. subst m.
  match goal with |- 0 <= ?x <= _ => set (x0 := x) end.
  assert (Hm : x0 mod 2 ^ 64 = x0).
  { apply Z.bits_inj'. intros i Hi. rewrite Z.testbit_mod_pow2 by lia.
    destruct (Z.ltb_spec i 64) as [H|H]; [reflexivity|]. simpl andb.
    destruct (Z.testbit x0 i) eqn:T; [|reflexivity]. exfalso.
    unfold x0 in T. rewrite <- (Z.shiftl_0_r (Z_of_byte b7)) in T.
    rewrite !Z.lor_spec in T.
    repeat match type of T with
           | (_ || _)%bool = true => apply orb_true_iff in T; destruct T as [T|T]
           end;
      apply shifted_byte_bit in T; try apply byte_range; lia. }
  pose proof (Z.mod_pos_bound x0 (2 ^ 64) ltac:(lia)) as Hb. rewrite Hm in Hb.
  unfold MaxUint64. lia.
Qed.

Lemma counter_is_range (p : bolt.pairs) (key : bytes) (m : Z) :
  counter_is p key m -> 0 <= m <= MaxUint64.
Proof.
  intros [[_ ->]|(old & _ & H)]; [unfold MaxUint64; lia | now apply Uint64_range in H].
Qed.

Section AnyCounter.

Variables (s : Store) (bucket key : bytes) (p : bolt.pairs) (m : Z).
Hypothesis Hb : has_bucket s bucket p.
Hypothesis Hm : counter_is p key m.
Hypothesis Hk : accepted_key key = true.

(** The second copy always adds one modulo 2^64 and stores the result. *)
Lemma Singleton_Incr_any :
  Singleton.Incr s bucket key =
    (Returns (add1_uint64 m, None),
     mkStore (bolt.store_bucket bucket
                (bolt.put key (counter_bytes (add1_uint64 m)) p) (db s))).
Proof.
  unfold accepted_key in Hk. apply andb_true_iff in Hk.
  destruct Hk as [Hk1 Hk2]. apply negb_true_iff in Hk1, Hk2.
  unfold Singleton.Incr, commit, bolt.DB_Update, bolt.Tx_Bucket, bolt.Bucket_Get,
    bolt.Bucket_Put, bolt.bucket_pairs.
  red in Hb. destruct s as [d]. cbn [db bolt.root bolt.writable negb] in *.
  rewrite !Hb. cbn [bind].
  destruct Hm as [[Hg Hz]|(old & Hg & Hu)]; rewrite Hg; cbn [bind];
    rewrite ?Hu; cbn [bind]; rewrite <- ?Hz;
    cbn [bind BigEndian.PutUint64 make repeat]; rewrite ?Hb; rewrite Hk1, Hk2;
    reflexivity.
Qed.

End AnyCounter.

(** ** Incr on any stored counter *)

(** X1: the first copy of [Incr] is a saturating increment of whatever counter
    the key holds (0 for an absent key, else the first eight bytes of the
    value): it returns [min (m + 1) MaxUint64] with no error; below the
    maximum the value stored afterwards is exactly the eight bytes of
    [m + 1], whatever the length of the old value; at the maximum the store
    is left as it was. *)
Theorem Incr_is_saturating_add (s : Store) (bucket key : bytes) (p : bolt.pairs) (m : Z) :
  has_bucket s bucket p -> counter_is p key m -> accepted_key key = true ->
  fst (Incr s bucket key) = Returns (Z.min (m + 1) MaxUint64, None) /\
  (m < MaxUint64 ->
   fst (Get (after (Incr s bucket key)) bucket key)
     = Returns (Some (counter_bytes (m + 1)), None)) /\
  (m = MaxUint64 -> after (Incr s bucket key) = s).
Proof.
  intros Hb Hm Hk. pose proof (counter_is_range p key m Hm) as Hr.
  destruct (Z.eq_dec m MaxUint64) as [E|E].
  - rewrite (Incr_at_max s bucket key p m Hb Hm E). subst m. cbn [fst].
    split; [rewrite Z.min_r by lia; reflexivity|].
    split; [intro; lia | intros _; reflexivity].
  - rewrite (Incr_below_max s bucket key p m Hb Hm) by (auto; lia).
    cbn [fst]. split; [|split; [|intro; contradiction]].
    + now rewrite Z.min_l by lia.
    + intros _. unfold after. cbn [snd].
      rewrite (Get_existing _ bucket (bolt.put key (counter_bytes (m + 1)) p)).
      * now rewrite get_put_same.
      * unfold has_bucket. simpl. apply lookup_store_same.
Qed.

Lemma Incr_is_saturating_add_witness :
  fst (Incr s_long b_ k_a) = Returns (Z.min (5 + 1) MaxUint64, None) /\
  (5 < MaxUint64 ->
   fst (Get (after (Incr s_long b_ k_a)) b_ k_a)
     = Returns (Some (counter_bytes (5 + 1)), None)) /\
  (5 = MaxUint64 -> after (Incr s_long b_ k_a) = s_long).
Proof.
  apply (Incr_is_saturating_add s_long b_ k_a
           [(k_a, [x00; x00; x00; x00; x00; x00; x00; x05; xff])] 5).
  - reflexivity.
  - right. eexists. split; reflexivity.
  - reflexivity.
Defined.

(** X2: the second copy of [Incr] is an increment modulo 2^64 of whatever
    counter the key holds: it returns [(m + 1) mod 2^64] with no error and the
    value stored afterwards is exactly the eight bytes of that number. *)
Theorem Singleton_Incr_is_wrapping_add (s : Store) (bucket key : bytes)
    (p : bolt.pairs) (m : Z) :
  has_bucket s bucket p -> counter_is p key m -> accepted_key key = true ->
  fst (Singleton.Incr s bucket key) = Returns ((m + 1) mod 2 ^ 64, None) /\
  fst (Get (after (Singleton.Incr s bucket key)) bucket key)
    = Returns (Some (counter_bytes ((m + 1) mod 2 ^ 64)), None).
Proof.
  intros Hb Hm Hk. rewrite (Singleton_Incr_any s bucket key p m Hb Hm Hk).
  unfold add1_uint64, after. cbn [fst snd]. split; [reflexivity|].
  rewrite (Get_existing _ bucket (bolt.put key (counter_bytes ((m + 1) mod 2 ^ 64)) p)).
  - now rewrite get_put_same.
  - unfold has_bucket. simpl. apply lookup_store_same.
Qed.

Lemma Singleton_Incr_is_wrapping_add_witness :
  fst (Singleton.Incr s_max b_ k_a) = Returns ((MaxUint64 + 1) mod 2 ^ 64, None) /\
  fst (Get (after (Singleton.Incr s_max b_ k_a)) b_ k_a)
    = Returns (Some (counter_bytes ((MaxUint64 + 1) mod 2 ^ 64)), None).
Proof.
  apply (Singleton_Incr_is_wrapping_add s_max b_ k_a [(k_a, repeat xff 8)] MaxUint64).
  - reflexivity.
  - right. eexists. split; reflexivity.
  - reflexivity.
Defined.

(** ** The writing calls, case by case *)

Ltac open_call d p Hb :=
  unfold Save, Incr, Singleton.Incr, commit, bolt.DB_Update, bolt.Tx_Bucket,
    bolt.Bucket_Get, bolt.Bucket_Put, bolt.bucket_pairs, put_outcome, put_error,
    read_counter;
  cbn [db bolt.root bolt.writable negb];
  destruct (bolt.lookup_bucket _ d) as [p|] eqn:Hb; norm Hb; [|reflexivity].

Ltac put_cases Hb :=
  destruct (length _ =? 0)%nat; norm Hb; [reflexivity|];
  destruct (Z.of_nat (length _) >? bolt.MaxKeySize); norm Hb; [reflexivity|];
  destruct (Z.of_nat (length _) >? bolt.MaxValueSize); norm Hb; reflexivity.

Lemma Save_lookup (s : Store) (bucket key val : bytes) :
  Save s bucket key val =
    match bolt.lookup_bucket bucket (db s) with
    | Some p => put_outcome s bucket key val p (fun err => err)
    | None => (Panics NilPointerDereference, s)
    end.
Proof. destruct s as [d]. open_call d p Hb. put_cases Hb. Qed.

Lemma Incr_lookup (s : Store) (bucket key : bytes) :
  Incr s bucket key =
    match bolt.lookup_bucket bucket (db s) with
    | Some p =>
        match read_counter p key with
        | Returns n =>
            if n =? MaxUint64 then (Returns (n, None), s)
            else put_outcome s bucket key (counter_bytes (add1_uint64 n)) p
                   (fun err => (add1_uint64 n, err))
        | Panics e => (Panics e, s)
        end
    | None => (Panics NilPointerDereference, s)
    end.
Proof.
  destruct s as [d]. open_call d p Hb.
  destruct (bolt.get key p) as [old|]; norm Hb;
    [destruct (BigEndian.Uint64 old) as [m|]; norm Hb; [|reflexivity]|];
    (destruct (_ =? MaxUint64); norm Hb; [reflexivity|]); put_cases Hb.
Qed.

Lemma Singleton_Incr_lookup (s : Store) (bucket key : bytes) :
  Singleton.Incr s bucket key =
    match bolt.lookup_bucket bucket (db s) with
    | Some p =>
        match read_counter p key with
        | Returns n =>
            put_outcome s bucket key (counter_bytes (add1_uint64 n)) p
              (fun err => (add1_uint64 n, err))
        | Panics e => (Panics e, s)
        end
    | None => (Panics NilPointerDereference, s)
    end.
Proof.
  destruct s as [d]. open_call d p Hb.
  destruct (bolt.get key p) as [old|]; norm Hb;
    [destruct (BigEndian.Uint64 old) as [m|]; norm Hb; [|reflexivity]|];
    put_cases Hb.
Qed.

Lemma Uint64_short (old : bytes) :
  (length old < 8)%nat -> BigEndian.Uint64 old = Panics IndexOutOfRange.
Proof.
  destruct old as [|b0 [|b1 [|b2 [|b3 [|b4 [|b5 [|b6 [|b7 rest]]]]]]]]; simpl length;
    intro H; try reflexivity; lia.
Qed.

(** X3: when the key holds a value of fewer than eight bytes, both copies of
    [Incr] panic with an index out of range, and the store is as before. *)
Theorem Incr_short_value_panics (s : Store) (bucket key old : bytes) :
  fst (Get s bucket key) = Returns (Some old, None) ->
  (length old < 8)%nat ->
  Incr s bucket key = (Panics IndexOutOfRange, s) /\
  Singleton.Incr s bucket key = (Panics IndexOutOfRange, s).
Proof.
  intros Hg Hl. apply Get_found in Hg. destruct Hg as (p & Hb & Hg). red in Hb.
  rewrite Incr_lookup, Singleton_Incr_lookup, Hb. unfold read_counter.
  now rewrite Hg, (Uint64_short old Hl).
Qed.

Lemma Incr_short_value_panics_witness :
  Incr s_acb b_ k_a = (Panics IndexOutOfRange, s_acb) /\
  Singleton.Incr s_acb b_ k_a = (Panics IndexOutOfRange, s_acb).
Proof.
  apply (Incr_short_value_panics s_acb b_ k_a [x01]).
  - reflexivity.
  - simpl. lia.
Defined.

(** X4: the two copies of [Incr] differ only on a counter at the maximum:
    whenever the value under the key does not decode to 0xFFFFFFFFFFFFFFFF
    (absent key, other counter, short value, absent bucket) they return the
    same and leave the same store. *)
Theorem Incr_copies_differ_only_at_max (s : Store) (bucket key : bytes) :
  (forall old, fst (Get s bucket key) = Returns (Some old, None) ->
               BigEndian.Uint64 old <> Returns MaxUint64) ->
  Singleton.Incr s bucket key = Incr s bucket key.
Proof.
  intro H. rewrite Incr_lookup, Singleton_Incr_lookup.
  destruct (bolt.lookup_bucket bucket (db s)) as [p|] eqn:Hb; [|reflexivity].
  unfold read_counter.
  destruct (bolt.get key p) as [old|] eqn:Hg; [|reflexivity].
  destruct (BigEndian.Uint64 old) as [n|e] eqn:Hu; [|reflexivity].
  destruct (Z.eqb_spec n MaxUint64) as [->|Hne]; [|reflexivity].
  exfalso. apply (H old); [|exact Hu].
  apply Get_found. now exists p.
Qed.

Lemma Incr_copies_differ_only_at_max_witness :
  Singleton.Incr s_long b_ k_a = Incr s_long b_ k_a.
Proof.
  apply (Incr_copies_differ_only_at_max s_long b_ k_a).
  intros old H. vm_compute in H. injection H as <-. vm_compute. discriminate.
Defined.

(** X5: a counter written with [Save] as its eight big-endian bytes is the
    counter that [Incr] continues from: for [0 <= m < MaxUint64] and a key the
    engine accepts, [Incr] after [Save] of the bytes of [m] returns [m + 1],
    in both copies. *)
Theorem Incr_continues_saved_counter (s : Store) (bucket key : bytes) (p : bolt.pairs)
    (m : Z) :
  has_bucket s bucket p -> accepted_key key = true -> 0 <= m < MaxUint64 ->
  fst (Incr (after (Save s bucket key (counter_bytes m))) bucket key)
    = Returns (m + 1, None) /\
  fst (Singleton.Incr (after (Save s bucket key (counter_bytes m))) bucket key)
    = Returns (m + 1, None).
Proof.
  intros Hb Hk Hm.
  rewrite (Save_accepted s bucket p Hb key (counter_bytes m) Hk eq_refl).
  unfold after. cbn [snd].
  set (s' := mkStore (bolt.store_bucket bucket (bolt.put key (counter_bytes m) p) (db s))).
  assert (Hb' : has_bucket s' bucket (bolt.put key (counter_bytes m) p)).
  { unfold has_bucket, s'. simpl. apply lookup_store_same. }
  assert (Hc : counter_is (bolt.put key (counter_bytes m) p) key m).
  { right. eexists. split; [apply get_put_same|]. apply Uint64_counter_bytes. lia. }
  rewrite (Incr_below_max s' bucket key _ m Hb' Hc Hm Hk).
  rewrite (Singleton_Incr_below_max s' bucket key _ m Hb' Hc Hm Hk).
  split; reflexivity.
Qed.

Lemma Incr_continues_saved_counter_witness :
  fst (Incr (after (Save s0 b_ k_a (counter_bytes 41))) b_ k_a) = Returns (41 + 1, None) /\
  fst (Singleton.Incr (after (Save s0 b_ k_a (counter_bytes 41))) b_ k_a)
    = Returns (41 + 1, None).
Proof.
  apply (Incr_continues_saved_counter s0 b_ k_a [] 41).
  - reflexivity.
  - reflexivity.
  - vm_compute. split; [discriminate | reflexivity].
Defined.

(** ** Save: overwriting and refusals *)

Lemma put_put (k v1 v2 : bytes) (p : bolt.pairs) :
  bolt.put k v2 (bolt.put k v1 p) = bolt.put k v2 p.
Proof.
  induction p as [|[k' v'] p IH]; simpl.
  - now rewrite Compare_refl.
  - destruct (Bytes.Compare k' k) eqn:E; simpl.
    + now rewrite Compare_refl.
    + now rewrite E, IH.
    + now rewrite Compare_refl.
Qed.

Lemma store_store (n : bytes) (p1 p2 : bolt.pairs) (d : bolt.DB) :
  bolt.store_bucket n p2 (bolt.store_bucket n p1 d) = bolt.store_bucket n p2 d.
Proof.
  induction d as [|[m q] d IH]; simpl.
  - now rewrite Equal_refl.
  - destruct (Bytes.Equal m n) eqn:E; simpl; rewrite E; [reflexivity | now rewrite IH].
Qed.

(** X6: [Save] overwrites: for a value the engine accepts, saving [v2] after
    [v1] under the same key leaves exactly the store that saving [v2] alone
    leaves, and returns what that [Save] returns.  This holds for every
    bucket and key, also refused or absent ones. *)
Theorem Save_overwrites (s : Store) (bucket key v1 v2 : bytes) :
  accepted_value v2 = true ->
  after (Save (after (Save s bucket key v1)) bucket key v2) = after (Save s bucket key v2) /\
  fst (Save (after (Save s bucket key v1)) bucket key v2) = fst (Save s bucket key v2).
Proof.
  intro Hv. unfold accepted_value in Hv. apply negb_true_iff in Hv.
  rewrite (Save_lookup s bucket key v1).
  destruct (bolt.lookup_bucket bucket (db s)) as [p|] eqn:Hb; [|split; reflexivity].
  unfold put_outcome, put_error.
  destruct (length key =? 0)%nat eqn:E1; [split; reflexivity|].
  destruct (Z.of_nat (length key) >? bolt.MaxKeySize) eqn:E2; [split; reflexivity|].
  destruct (Z.of_nat (length v1) >? bolt.MaxValueSize) eqn:E3; [split; reflexivity|].
  unfold after. cbn [snd]. rewrite !Save_lookup. cbn [db].
  rewrite lookup_store_same, Hb. unfold put_outcome, put_error. rewrite E1, E2, Hv.
  cbn [fst snd db]. now rewrite put_put, store_store.
Qed.

Lemma Save_overwrites_witness :
  after (Save (after (Save s_acb b_ k_b [x05])) b_ k_b [x06]) = after (Save s_acb b_ k_b [x06]) /\
  fst (Save (after (Save s_acb b_ k_b [x05])) b_ k_b [x06]) = fst (Save s_acb b_ k_b [x06]).
Proof. apply (Save_overwrites s_acb b_ k_b [x05] [x06]). reflexivity. Defined.

(** X7: on an existing bucket [Save] returns the engine's refusal and leaves
    the store as it was: [ErrKeyRequired] for the empty key,
    [ErrKeyTooLarge] for a key of more than 32768 bytes, and
    [ErrValueTooLarge] for a value of more than 2^31-2 bytes under a key
    that is accepted. *)
Theorem Save_refusals (s : Store) (bucket : bytes) (p : bolt.pairs) :
  has_bucket s bucket p ->
  (forall val, Save s bucket [] val = (Returns (Some ErrKeyRequired), s)) /\
  (forall key val, Z.of_nat (length key) > bolt.MaxKeySize ->
     Save s bucket key val = (Returns (Some ErrKeyTooLarge), s)) /\
  (forall key val, accepted_key key = true ->
     Z.of_nat (length val) > bolt.MaxValueSize ->
     Save s bucket key val = (Returns (Some ErrValueTooLarge), s)).
Proof.
  intro Hb. red in Hb. repeat split; intros; rewrite Save_lookup, Hb;
    unfold put_outcome, put_error.
  - reflexivity.
  - destruct (length key =? 0)%nat eqn:E.
    + apply Nat.eqb_eq in E. rewrite E in H. unfold bolt.MaxKeySize in H. simpl in H. lia.
    + assert (G : (Z.of_nat (length key) >? bolt.MaxKeySize) = true)
        by (apply Z.gtb_lt; lia).
      now rewrite G.
  - unfold accepted_key in H. apply andb_true_iff in H. destruct H as [H1 H2].
    apply negb_true_iff in H1, H2. rewrite H1, H2.
    assert (G : (Z.of_nat (length val) >? bolt.MaxValueSize) = true)
      by (apply Z.gtb_lt; lia).
    now rewrite G.
Qed.

Lemma Save_refusals_witness :
  Save s_acb b_ [] [x01] = (Returns (Some ErrKeyRequired), s_acb) /\
  Save s_acb b_ (repeat x00 (Z.to_nat 32769)) [x01]
    = (Returns (Some ErrKeyTooLarge), s_acb).
Proof.
  pose proof (Save_refusals s_acb b_ _ eq_refl) as (H1 & H2 & _).
  split; [apply H1 | apply H2]. rewrite repeat_length, Z2Nat.id by lia. reflexivity.
Defined.

(** ** Writes and the rest of the store *)

Lemma Get_after_put (s : Store) (bucket key data : bytes) (p : bolt.pairs)
    (bucket' key' : bytes) :
  has_bucket s bucket p -> bucket' <> bucket \/ key' <> key ->
  fst (Get (mkStore (bolt.store_bucket bucket (bolt.put key data p) (db s))) bucket' key')
    = fst (Get s bucket' key').
Proof.
  intros Hb Hne. rewrite !Get_lookup. cbn [db].
  destruct (list_eq_dec Byte.byte_eq_dec bucket' bucket) as [->|Hbn].
  - destruct Hne as [Hne|Hne]; [contradiction|].
    rewrite lookup_store_same. red in Hb. rewrite Hb. cbn [fst].
    now rewrite (get_put_other key' key data p Hne).
  - rewrite lookup_store_other by congruence.
    now destruct (bolt.lookup_bucket bucket' (db s)).
Qed.

Lemma Get_after_write (s s' : Store) (bucket key bucket' key' : bytes) :
  unchanged_or_put s s' bucket key -> bucket' <> bucket \/ key' <> key ->
  fst (Get s' bucket' key') = fst (Get s bucket' key').
Proof.
  intros [->|(p & data & Hb & ->)] Hne; [reflexivity|]. now apply Get_after_put.
Qed.

(** X8: a write touches one key of one bucket: after [Save] or [Incr] (either
    copy) on [bucket] and [key], [Get] on any other key or any other bucket
    returns what it returned before, whether the write succeeded, was
    refused or panicked. *)
Theorem writes_touch_one_key (s : Store) (bucket key bucket' key' : bytes) :
  bucket' <> bucket \/ key' <> key ->
  (forall val,
     fst (Get (after (Save s bucket key val)) bucket' key') = fst (Get s bucket' key')) /\
  fst (Get (after (Incr s bucket key)) bucket' key') = fst (Get s bucket' key') /\
  fst (Get (after (Singleton.Incr s bucket key)) bucket' key') = fst (Get s bucket' key').
Proof.
  intro Hne. repeat split; intros; eapply Get_after_write; eauto.
  - apply Save_store.
  - apply Incr_store.
  - apply Singleton_Incr_store.
Qed.

Lemma writes_touch_one_key_witness :
  (forall val,
     fst (Get (after (Save s_acb b_ k_a val)) b_ k_b) = fst (Get s_acb b_ k_b)) /\
  fst (Get (after (Incr s_acb b_ k_a)) b_ k_b) = fst (Get s_acb b_ k_b) /\
  fst (Get (after (Singleton.Incr s_acb b_ k_a)) b_ k_b) = fst (Get s_acb b_ k_b).
Proof.
  apply (writes_touch_one_key s_acb b_ k_a b_ k_b). right. discriminate.
Defined.

(** ** CreateBucketIfNotExist *)

Lemma lookup_app (b n : bytes) (d : bolt.DB) :
  bolt.lookup_bucket b (d ++ [(n, [])]) =
    match bolt.lookup_bucket b d with
    | Some p => Some p
    | None => if Bytes.Equal n b then Some [] else None
    end.
Proof.
  induction d as [|[m q] d IH]; simpl; [reflexivity|].
  destruct (Bytes.Equal m b); [reflexivity | exact IH].
Qed.

Lemma CreateBucketIfNotExist_lookup (s : Store) (bucket : bytes) :
  CreateBucketIfNotExist s bucket =
    if (length bucket =? 0)%nat
    then (Panics (PanicError ErrBucketNameRequired), s)
    else match bolt.lookup_bucket bucket (db s) with
         | Some _ => (Returns None, s)
         | None => (Returns None, mkStore (db s ++ [(bucket, [])]))
         end.
Proof.
  destruct s as [d]. unfold CreateBucketIfNotExist, commit, bolt.DB_Update,
    bolt.Tx_CreateBucketIfNotExists. cbn [db bolt.root bolt.writable negb].
  destruct (length bucket =? 0)%nat; [reflexivity|].
  destruct (bolt.lookup_bucket bucket d); reflexivity.
Qed.

(** X9: [CreateBucketIfNotExist] never returns an error: whatever the store
    and the name, it returns [nil] or it panics, and for the empty name it
    panics with [ErrBucketNameRequired] and leaves the store as it was. *)
Theorem CreateBucketIfNotExist_never_returns_error (s : Store) (bucket : bytes) :
  (forall e, fst (CreateBucketIfNotExist s bucket) <> Returns (Some e)) /\
  CreateBucketIfNotExist s [] = (Panics (PanicError ErrBucketNameRequired), s).
Proof.
  split; [|now rewrite CreateBucketIfNotExist_lookup].
  intro e. rewrite CreateBucketIfNotExist_lookup.
  destruct (length bucket =? 0)%nat; [discriminate|].
  destruct (bolt.lookup_bucket bucket (db s)); discriminate.
Qed.

(** X10: for a name that is not empty, [CreateBucketIfNotExist] returns [nil];
    afterwards the bucket exists, empty when it was absent before; every
    bucket that existed keeps its pairs (the bucket itself included); and a
    second call changes nothing. *)
Theorem CreateBucketIfNotExist_creates_once (s : Store) (bucket : bytes) :
  bucket <> [] ->
  fst (CreateBucketIfNotExist s bucket) = Returns None /\
  (exists p, has_bucket (after (CreateBucketIfNotExist s bucket)) bucket p) /\
  (bolt.lookup_bucket bucket (db s) = None ->
   has_bucket (after (CreateBucketIfNotExist s bucket)) bucket []) /\
  (forall b p, has_bucket s b p ->
     has_bucket (after (CreateBucketIfNotExist s bucket)) b p) /\
  CreateBucketIfNotExist (after (CreateBucketIfNotExist s bucket)) bucket
    = (Returns None, after (CreateBucketIfNotExist s bucket)).
Proof.
  intro Hne.
  assert (Hl : (length bucket =? 0)%nat = false) by now destruct bucket.
  rewrite (CreateBucketIfNotExist_lookup s), Hl. unfold has_bucket, after.
  destruct (bolt.lookup_bucket bucket (db s)) as [p|] eqn:Hb; cbn [fst snd db].
  - repeat split; try (intros; assumption); try discriminate.
    + now exists p.
    + now rewrite CreateBucketIfNotExist_lookup, Hl, Hb.
  - assert (Hnew : bolt.lookup_bucket bucket (db s ++ [(bucket, [])]) = Some []).
    { now rewrite lookup_app, Hb, Equal_refl. }
    repeat split.
    + now exists [].
    + intros _. exact Hnew.
    + intros b p Hp. now rewrite lookup_app, Hp.
    + rewrite CreateBucketIfNotExist_lookup, Hl. cbn [db]. now rewrite Hnew.
Qed.

Lemma CreateBucketIfNotExist_creates_once_witness :
  fst (CreateBucketIfNotExist s_acb k_foo) = Returns None /\
  (exists p, has_bucket (after (CreateBucketIfNotExist s_acb k_foo)) k_foo p) /\
  (bolt.lookup_bucket k_foo (db s_acb) = None ->
   has_bucket (after (CreateBucketIfNotExist s_acb k_foo)) k_foo []) /\
  (forall b p, has_bucket s_acb b p ->
     has_bucket (after (CreateBucketIfNotExist s_acb k_foo)) b p) /\
  CreateBucketIfNotExist (after (CreateBucketIfNotExist s_acb k_foo)) k_foo
    = (Returns None, after (CreateBucketIfNotExist s_acb k_foo)).
Proof. apply (CreateBucketIfNotExist_creates_once s_acb k_foo). discriminate. Defined.

(** ** Buckets stay *)

Lemma has_bucket_after_write (s s' : Store) (bucket key b : bytes) (p : bolt.pairs) :
  unchanged_or_put s s' bucket key -> has_bucket s b p ->
  exists p', has_bucket s' b p' /\ (b <> bucket -> p' = p).
Proof.
  intros [->|(q & data & Hq & ->)] Hp; [now exists p|].
  unfold has_bucket in *. cbn [db].
  destruct (list_eq_dec Byte.byte_eq_dec b bucket) as [->|Hne].
  - eexists. split; [apply lookup_store_same | contradiction].
  - exists p. split; [|reflexivity]. rewrite lookup_store_other by congruence. exact Hp.
Qed.

(** X11: no call of the facade removes a bucket: a bucket that exists still
    exists after [CreateBucketIfNotExist], [Save] and [Incr] (either copy) on
    any bucket and key, and a write to another bucket leaves its pairs
    as they were. *)
Theorem bucket_is_kept (s : Store) (b : bytes) (p : bolt.pairs) :
  has_bucket s b p ->
  (forall bucket, has_bucket (after (CreateBucketIfNotExist s bucket)) b p) /\
  (forall bucket key val,
     exists p', has_bucket (after (Save s bucket key val)) b p' /\ (b <> bucket -> p' = p)) /\
  (forall bucket key,
     exists p', has_bucket (after (Incr s bucket key)) b p' /\ (b <> bucket -> p' = p)) /\
  (forall bucket key,
     exists p', has_bucket (after (Singleton.Incr s bucket key)) b p' /\
                (b <> bucket -> p' = p)).
Proof.
  intro Hp. repeat split; intros.
  - rewrite CreateBucketIfNotExist_lookup. unfold after, has_bucket in *.
    destruct (length bucket =? 0)%nat; [exact Hp|].
    destruct (bolt.lookup_bucket bucket (db s)); [exact Hp|].
    cbn [snd db]. now rewrite lookup_app, Hp.
  - eapply has_bucket_after_write; [apply Save_store | exact Hp].
  - eapply has_bucket_after_write; [apply Incr_store | exact Hp].
  - eapply has_bucket_after_write; [apply Singleton_Incr_store | exact Hp].
Qed.

Lemma bucket_is_kept_witness :
  (forall bucket, has_bucket (after (CreateBucketIfNotExist s0 bucket)) b_ []) /\
  (forall bucket key val,
     exists p', has_bucket (after (Save s0 bucket key val)) b_ p' /\
                (b_ <> bucket -> p' = [])) /\
  (forall bucket key,
     exists p', has_bucket (after (Incr s0 bucket key)) b_ p' /\ (b_ <> bucket -> p' = [])) /\
  (forall bucket key,
     exists p', has_bucket (after (Singleton.Incr s0 bucket key)) b_ p' /\
                (b_ <> bucket -> p' = [])).
Proof. apply (bucket_is_kept s0 b_ []). reflexivity. Defined.

(** ** What every store built through the facade satisfies *)

Lemma put_error_None (key val : bytes) :
  put_error key val = None -> accepted_key key = true /\ accepted_value val = true.
Proof.
  unfold put_error, accepted_key, accepted_value.
  destruct (length key =? 0)%nat; [discriminate|].
  destruct (Z.of_nat (length key) >? bolt.MaxKeySize); [discriminate|].
  destruct (Z.of_nat (length val) >? bolt.MaxValueSize); [discriminate|].
  now split.
Qed.

Lemma put_outcome_accepted {A : Type} (s : Store) (bucket key val : bytes)
    (p : bolt.pairs) (r : option error -> A) :
  has_bucket s bucket p ->
  unchanged_or_accepted_put s (after (put_outcome s bucket key val p r)) bucket key.
Proof.
  intro Hb. unfold put_outcome. destruct (put_error key val) eqn:E; [now left|].
  apply put_error_None in E. destruct E as [E1 E2].
  right. exists p, val. now repeat split.
Qed.

Lemma Save_accepted_put (s : Store) (bucket key val : bytes) :
  unchanged_or_accepted_put s (after (Save s bucket key val)) bucket key.
Proof.
  rewrite Save_lookup.
  destruct (bolt.lookup_bucket bucket (db s)) as [p|] eqn:Hb; [|now left].
  now apply put_outcome_accepted.
Qed.

Lemma Incr_accepted_put (s : Store) (bucket key : bytes) :
  unchanged_or_accepted_put s (after (Incr s bucket key)) bucket key.
Proof.
  rewrite Incr_lookup.
  destruct (bolt.lookup_bucket bucket (db s)) as [p|] eqn:Hb; [|now left].
  destruct (read_counter p key) as [n|e]; [|now left].
  destruct (n =? MaxUint64); [now left|]. now apply put_outcome_accepted.
Qed.

Lemma Singleton_Incr_accepted_put (s : Store) (bucket key : bytes) :
  unchanged_or_accepted_put s (after (Singleton.Incr s bucket key)) bucket key.
Proof.
  rewrite Singleton_Incr_lookup.
  destruct (bolt.lookup_bucket bucket (db s)) as [p|] eqn:Hb; [|now left].
  destruct (read_counter p key) as [n|e]; [|now left].
  now apply put_outcome_accepted.
Qed.

Lemma store_inv_write (s s' : Store) (bucket key : bytes) :
  store_inv s -> unchanged_or_accepted_put s s' bucket key -> store_inv s'.
Proof.
  intros Hi [->|(p & data & Hb & Hk & Hv & ->)]; [exact Hi|].
  unfold store_inv, has_bucket in *. destruct s as [d]. cbn [db] in *.
  induction d as [|[n q] d IH]; simpl in *; [discriminate|].
  inversion Hi as [|? ? Hn Hd]; subst.
  destruct (Bytes.Equal n bucket) eqn:E.
  - injection Hb as ->. constructor; [|exact Hd].
    destruct Hn as (H1 & H2 & H3). repeat split; cbn [fst snd] in *.
    + exact H1.
    + now apply put_sorted.
    + apply put_Forall; [now split | exact H3].
  - constructor; [exact Hn | now apply IH].
Qed.

Lemma store_inv_CreateBucketIfNotExist (s : Store) (bucket : bytes) :
  store_inv s -> store_inv (after (CreateBucketIfNotExist s bucket)).
Proof.
  intro Hi. rewrite CreateBucketIfNotExist_lookup. unfold after.
  destruct (length bucket =? 0)%nat eqn:E; [exact Hi|].
  destruct (bolt.lookup_bucket bucket (db s)); [exact Hi|].
  unfold store_inv in *. cbn [snd db]. apply Forall_app. split; [exact Hi|].
  constructor; [|constructor]. repeat split; cbn [fst snd].
  - intros ->. discriminate.
  - constructor.
  - constructor.
Qed.

Lemma reachable_store_inv (s : Store) : reachable s -> store_inv s.
Proof.
  induction 1.
  - constructor.
  - now apply store_inv_CreateBucketIfNotExist.
  - eapply store_inv_write; [eassumption | apply Save_accepted_put].
  - eapply store_inv_write; [eassumption | apply Incr_accepted_put].
  - eapply store_inv_write; [eassumption | apply Singleton_Incr_accepted_put].
Qed.

Lemma store_inv_bucket (s : Store) (bucket : bytes) (p : bolt.pairs) :
  store_inv s -> has_bucket s bucket p -> bucket_inv (bucket, p).
Proof.
  unfold store_inv, has_bucket. destruct s as [d]. cbn [db].
  induction d as [|[n q] d IH]; simpl; [discriminate|].
  intros Hi. inversion Hi as [|? ? Hn Hd]; subst.
  destruct (Bytes.Equal n bucket) eqn:E.
  - apply Equal_true_iff in E. subst n. intro H. injection H as ->. exact Hn.
  - now apply IH.
Qed.

Lemma sorted_NoDup (p : bolt.pairs) : StronglySorted key_lt p -> NoDup (map fst p).
Proof.
  induction 1 as [|[k v] p Hs IH Hf]; simpl; constructor; [|exact IH].
  intro Hin. apply in_map_iff in Hin. destruct Hin as ([k' v'] & Hk & Hin).
  simpl in Hk. subst k'. rewrite Forall_forall in Hf. apply Hf in Hin.
  unfold key_lt in Hin. simpl in Hin. rewrite Compare_refl in Hin. discriminate.
Qed.

(** X12: in every store that calls of the facade build from a new one, a
    bucket has a name that is not empty, its keys are strictly ascending in
    [bytes.Compare] order and so without duplicates, and every pair has a key
    that is not empty and at most 32768 bytes and a value of at most 2^31-2
    bytes. *)
Theorem reachable_store_invariant (s : Store) (bucket : bytes) (p : bolt.pairs) :
  reachable s -> has_bucket s bucket p ->
  bucket <> [] /\
  StronglySorted key_lt p /\
  NoDup (map fst p) /\
  Forall (fun e => accepted_key (fst e) = true /\ accepted_value (snd e) = true) p.
Proof.
  intros Hr Hb. apply reachable_store_inv in Hr.
  destruct (store_inv_bucket s bucket p Hr Hb) as (H1 & H2 & H3). cbn [fst snd] in *.
  repeat split; auto. now apply sorted_NoDup.
Qed.

Lemma reachable_store_invariant_witness :
  b_ <> [] /\
  StronglySorted key_lt [(k_a, [x01]); (k_b, [x02]); (k_c, [x03])] /\
  NoDup (map fst [(k_a, [x01]); (k_b, [x02]); (k_c, [x03])]) /\
  Forall (fun e => accepted_key (fst e) = true /\ accepted_value (snd e) = true)
    [(k_a, [x01]); (k_b, [x02]); (k_c, [x03])].
Proof.
  apply (reachable_store_invariant s_acb b_ [(k_a, [x01]); (k_b, [x02]); (k_c, [x03])]).
  - unfold s_acb, s0. repeat constructor.
  - reflexivity.
Defined.

(** X13: for a key that the engine refuses (empty, or longer than 32768
    bytes), on an existing bucket of a store built through the facade, both
    copies of [Incr] return the count 1 together with the engine's error
    ([ErrKeyRequired] or [ErrKeyTooLarge]) and store nothing, at every call. *)
Theorem Incr_refused_key (s : Store) (bucket key : bytes) (p : bolt.pairs) :
  reachable s -> has_bucket s bucket p -> accepted_key key = false ->
  exists e, (e = ErrKeyRequired \/ e = ErrKeyTooLarge) /\
    Incr s bucket key = (Returns (1, Some e), s) /\
    Singleton.Incr s bucket key = (Returns (1, Some e), s).
Proof.
  intros Hr Hb Hk. apply reachable_store_inv in Hr.
  destruct (store_inv_bucket s bucket p Hr Hb) as (_ & _ & Ha). cbn [snd] in Ha.
  assert (Hg : bolt.get key p = None).
  { destruct (bolt.get key p) as [v|] eqn:E; [|reflexivity].
    apply get_In in E. rewrite Forall_forall in Ha. apply Ha in E.
    destruct E as [E _]. simpl in E. congruence. }
  red in Hb. rewrite Incr_lookup, Singleton_Incr_lookup, Hb.
  unfold read_counter. rewrite Hg. change (0 =? MaxUint64) with false. cbn iota.
  change (add1_uint64 0) with 1.
  unfold put_outcome, put_error. unfold accepted_key in Hk.
  destruct (length key =? 0)%nat; [exists ErrKeyRequired; auto|].
  destruct (Z.of_nat (length key) >? bolt.MaxKeySize); [exists ErrKeyTooLarge; auto|].
  discriminate.
Qed.

Lemma Incr_refused_key_witness :
  exists e, (e = ErrKeyRequired \/ e = ErrKeyTooLarge) /\
    Incr s_acb b_ [] = (Returns (1, Some e), s_acb) /\
    Singleton.Incr s_acb b_ [] = (Returns (1, Some e), s_acb).
Proof.
  apply (Incr_refused_key s_acb b_ [] [(k_a, [x01]); (k_b, [x02]); (k_c, [x03])]).
  - unfold s_acb, s0. repeat constructor.
  - reflexivity.
  - reflexivity.
Defined.

(** ** Scans against each other and against Get *)

Lemma take_while_all (p : bolt.pairs) : take_while (fun _ => true) p = p.
Proof. induction p as [|[k v] p IH]; simpl; [reflexivity | now rewrite IH]. Qed.

Lemma seek_nil_key (p : bolt.pairs) : bolt.seek [] p = p.
Proof.
  apply seek_here. destruct p as [|[k v] p]; [exact I|]. now destruct k.
Qed.

(** X14: [FindPrefix] with the empty prefix is [Scan]: for every store, bucket,
    visitor and visitor state the two calls give the same result, also the
    panic on an absent bucket. *)
Theorem FindPrefix_empty_prefix_is_Scan {S : Type} (s : Store) (bucket : bytes)
    (next : visitor S) (st : S) :
  FindPrefix s bucket [] next st = Scan s bucket next st.
Proof.
  destruct (bolt.lookup_bucket bucket (db s)) as [p|] eqn:Hb.
  - rewrite (FindPrefix_existing s bucket p Hb), (Scan_existing s bucket p Hb).
    rewrite seek_nil_key.
    replace (take_while (fun k => Bytes.HasPrefix k []) p) with p; [reflexivity|].
    symmetry. apply take_while_all.
  - destruct s as [d]. cbn [db] in Hb.
    unfold FindPrefix, Scan, commit, bolt.DB_View, bolt.Tx_Bucket, bolt.Bucket_Cursor,
      bolt.Bucket_ForEach. cbn [db bolt.root]. now rewrite Hb.
Qed.

Lemma take_while_seek_point (k : bytes) (p : bolt.pairs) :
  StronglySorted key_lt p ->
  take_while (le_key k) (bolt.seek k p) =
    match bolt.get k p with
    | Some v => [(k, v)]
    | None => []
    end.
Proof.
  unfold bolt.get. induction 1 as [|[k1 v1] p Hs IH Hf]; [reflexivity|].
  simpl. destruct (Bytes.Compare k1 k) eqn:E.
  - apply Compare_Eq_iff in E. subst k1. rewrite Equal_refl. simpl.
    unfold le_key at 1. rewrite Compare_refl. f_equal.
    destruct p as [|[k2 v2] p]; [reflexivity|]. simpl.
    inversion Hf as [|? ? Hlt _]; subst. unfold key_lt in Hlt. simpl in Hlt.
    apply Compare_Gt_Lt in Hlt. unfold le_key. now rewrite Hlt.
  - exact IH.
  - simpl. unfold le_key at 1. rewrite E.
    assert (Hne : Bytes.Equal k k1 = false).
    { apply Equal_false_iff. intros ->. rewrite Compare_refl in E. discriminate. }
    now rewrite Hne.
Qed.

(** X15: [FindBetween] with both bounds equal to [key] looks the key up: in a
    store that satisfies the invariant, it calls the visitor once, on the
    pair that [Get] finds, and returns [io.EOF] or [nil] by the visitor's
    answer; when [Get] returns [ErrNotfound] it calls nothing and returns
    [nil]. *)
Theorem FindBetween_one_key {S : Type} (s : Store) (bucket key : bytes)
    (next : visitor S) (st : S) :
  wf s = true ->
  (forall v, fst (Get s bucket key) = Returns (Some v, None) ->
     FindBetween s bucket key key next st = (Returns (eof_unless next key v st), s)) /\
  (fst (Get s bucket key) = Returns (None, Some ErrNotfound) ->
     FindBetween s bucket key key next st = (Returns (None, st), s)).
Proof.
  intro Hwf. rewrite Get_lookup.
  destruct (bolt.lookup_bucket bucket (db s)) as [p|] eqn:Hb;
    [|split; [intro v|]; discriminate].
  pose proof (wf_bucket s bucket p Hwf Hb) as Hs.
  rewrite (FindBetween_existing s bucket p Hb), Compare_refl.
  rewrite (take_while_seek_point key p Hs). cbn [fst].
  destruct (bolt.get key p) as [v|]; split; try discriminate.
  - intros v' H. apply Returns_inj in H. injection H as <-. simpl.
    now destruct (eof_unless next key v st) as [[e|] st'].
  - reflexivity.
Qed.

Lemma FindBetween_one_key_witness :
  (forall v, fst (Get s_acb b_ k_b) = Returns (Some v, None) ->
     FindBetween s_acb b_ k_b k_b (fun _ v' (l : list bytes) => (true, l ++ [v'])) []
       = (Returns (eof_unless (fun _ v' (l : list bytes) => (true, l ++ [v'])) k_b v []),
          s_acb)) /\
  (fst (Get s_acb b_ k_b) = Returns (None, Some ErrNotfound) ->
     FindBetween s_acb b_ k_b k_b (fun _ v' (l : list bytes) => (true, l ++ [v'])) []
       = (Returns (None, []), s_acb)).
Proof. apply (FindBetween_one_key s_acb b_ k_b). reflexivity. Defined.
